(** * gyre: deterministic batched random draws (gyre/pipeline/randtools.py)

    A shallow embedding of [batched_rand], [batched_randn],
    [TorchRandOverride] and [tracker] together with the properties the
    specification states about them.

    torch itself is not part of the repository.  Its random engine is a
    parameter of the development (class [TorchBackend]); the handful of
    tensor operations the module calls ([torch.cat], [Tensor.to], the
    draw entry points) are modelled in the first part of the file, with
    the exceptions they raise: [torch.cat] for an empty list or tensors
    that do not fit together, [torch.rand] and [torch.randn] for an
    integer dtype, [torch.randint] for a missing or refused bound.

    The later parts cover [StoreHandler] and [StdCapture] of
    gyre/logging.py, the channel and slicing functions of gyre/images.py
    and [TextEmbedding.repeat]. *)

From Stdlib Require Import Ascii.
From stdpp Require Import base list strings gmap pretty functions.

Set Warnings "-clear-no-such-hyp".

Open Scope string_scope.
Open Scope list_scope.
Open Scope stdpp_scope.

(** ** Python outcomes *)

Inductive py_error :=
  | ValueError (msg : string)
  | ZeroDivisionError
  | IndexError
  | RuntimeError (msg : string)
  | TypeError (msg : string)
  | LoggingError.

Inductive outcome (A : Type) :=
  | Return (a : A)
  | Raise (e : py_error).
Arguments Return {A} a.
Arguments Raise {A} e.

(** Effectful Python code over a state [S]: the outcome of the call and
    the state it leaves behind (mutations made before an exception stay). *)
Definition Eff (S A : Type) : Type := S → outcome A * S.

Definition ret {S A} (a : A) : Eff S A := λ s, (Return a, s).
Definition raise {S A} (e : py_error) : Eff S A := λ s, (Raise e, s).
Definition bind {S A B} (m : Eff S A) (k : A → Eff S B) : Eff S B :=
  λ s, match m s with
       | (Return a, s') => k a s'
       | (Raise e, s') => (Raise e, s')
       end.

Notation "'let!' x ':=' m 'in' k" := (bind m (λ x, k))
  (at level 10, x name, m at level 100, k at level 200).

(** [[f(x) for x in xs]] *)
Fixpoint comprehension {S A B} (f : A → Eff S B) (xs : list A) : Eff S (list B) :=
  match xs with
  | [] => ret []
  | x :: xs' =>
      let! y := f x in
      let! ys := comprehension f xs' in
      ret (y :: ys)
  end.

(** ** Tensor metadata *)

Inductive device := CPU | CUDA (index : nat).
Inductive dtype := Float16 | Float32 | Float64 | Int32 | Int64.

Global Instance device_eq_dec : EqDecision device.
Proof. solve_decision. Defined.
Global Instance dtype_eq_dec : EqDecision dtype.
Proof. solve_decision. Defined.

(** [torch.rand] and [torch.randn] exist for these only. *)
Definition is_floating_point (dt : dtype) : bool :=
  match dt with
  | Float16 | Float32 | Float64 => true
  | Int32 | Int64 => false
  end.

Definition dtype_name (dt : dtype) : string :=
  match dt with
  | Float16 => "Half" | Float32 => "Float" | Float64 => "Double"
  | Int32 => "Int" | Int64 => "Long"
  end.

(** What a kernel that does not exist for a dtype raises (the message of
    torch also names the kernel). *)
Definition not_implemented_for (dt : dtype) : py_error :=
  RuntimeError ("not implemented for '" +:+ dtype_name dt +:+ "'").

(** What the argument parser of torch raises when an argument has the
    wrong type, [high=None] for one. *)
Definition invalid_arguments (f : string) : py_error :=
  TypeError (f +:+ "() received an invalid combination of arguments").

(** The three draw kinds: [torch.rand], [torch.randn] and
    [torch.randint(low, high)]. *)
Inductive distribution :=
  | Uniform
  | Normal
  | RandInt (low high : Z).

(** Number of elements of a shape. *)
Definition numel (shape : list nat) : nat := foldr Nat.mul 1 shape.

(** ** The random engine

    [sample d dt size st] is one draw call on a generator whose internal
    state is [st]: the elements produced and the state the generator is
    left in.  [randint_check low high dt] is the error, if any, with which
    torch refuses the range from [low] up to [high] for the dtype [dt],
    before anything is drawn; an empty range is always refused. *)
Class TorchBackend := {
  gstate : Type;
  scalar : Type;
  sample : distribution → dtype → list nat → gstate → list scalar * gstate;
  sample_length : ∀ d dt size st, length (sample d dt size st).1 = numel size;
  randint_check : Z → Z → dtype → option py_error;
  randint_check_empty : ∀ low high dt,
    (high ≤ low)%Z → ∃ msg, randint_check low high dt = Some (RuntimeError msg)
}.

(** Generators are objects: a Stream List holds references, and the same
    object may be listed more than once. *)
Definition gen_ref := nat.

Section Torch.
Context `{TB : TorchBackend}.

Record generator := Generator { g_state : gstate; g_device : device }.

Record tensor := Tensor {
  t_shape : list nat;
  t_data : list scalar;
  t_device : device;
  t_dtype : dtype
}.

(** One entry per draw call issued to torch, in call order.  [ev_gen] is
    the generator passed as [generator=], [None] for an unseeded draw. *)
Record draw_event := DrawEvent {
  ev_gen : option gen_ref;
  ev_dist : distribution;
  ev_size : list nat
}.

Record world := World {
  heap : gen_ref → generator;
  defaults : device → gstate;
  history : list draw_event;
  stdout : list string
}.

Definition Py : Type → Type := Eff world.

(** *** torch entry points *)

(** A draw that torch carries out, with an explicit generator: it
    advances that generator only. *)
Definition seeded_draw (d : distribution) (size : list nat) (generator : gen_ref)
    (dev : device) (dt : dtype) : Py tensor := λ w,
  let g := heap w generator in
  let r := sample d dt size (g_state g) in
  (Return (Tensor size r.1 dev dt),
   World (<[generator := Generator r.2 (g_device g)]> (heap w))
         (defaults w)
         (history w ++ [DrawEvent (Some generator) d size])
         (stdout w)).

(** A draw that torch carries out, without generator: it uses the
    default generator of the device. *)
Definition unseeded_draw (d : distribution) (size : list nat)
    (dev : device) (dt : dtype) : Py tensor := λ w,
  let r := sample d dt size (defaults w dev) in
  (Return (Tensor size r.1 dev dt),
   World (heap w)
         (<[dev := r.2]> (defaults w))
         (history w ++ [DrawEvent None d size])
         (stdout w)).

(** [torch.rand] and [torch.randn] with [generator=], [device=] and
    [dtype=]: for an integer dtype they raise, and the generator is not
    used. *)
Definition float_draw (d : distribution) (size : list nat) (generator : gen_ref)
    (dev : device) (dt : dtype) : Py tensor :=
  if is_floating_point dt then seeded_draw d size generator dev dt
  else raise (not_implemented_for dt).

Definition torch_rand := float_draw Uniform.
Definition torch_randn := float_draw Normal.

(** [torch.randint(size=..., low=..., high=..., generator=..., dtype=...)];
    [high] is whatever the caller handed over, [None] included; without
    [dtype] the result is int64.  A call that raises does not use the
    generator. *)
Definition torch_randint (size : list nat) (low : Z) (high : option Z)
    (generator : gen_ref) (dev : device) (dt : option dtype) : Py tensor :=
  let dt := default Int64 dt in
  match high with
  | None => raise (invalid_arguments "randint")
  | Some high =>
      match randint_check low high dt with
      | Some e => raise e
      | None => seeded_draw (RandInt low high) size generator dev dt
      end
  end.

(** [torch.randn_like(input, dtype=..., device=...)] *)
Definition torch_randn_like (input : tensor) (dt : option dtype)
    (dev : option device) : Py tensor :=
  let dt := default (t_dtype input) dt in
  if is_floating_point dt then
    unseeded_draw Normal (t_shape input) (default (t_device input) dev) dt
  else raise (not_implemented_for dt).

(** [torch.randint_like(input, low=..., high=..., dtype=..., device=...)] *)
Definition torch_randint_like (input : tensor) (low : Z) (high : option Z)
    (dt : option dtype) (dev : option device) : Py tensor :=
  let dt := default (t_dtype input) dt in
  match high with
  | None => raise (invalid_arguments "randint_like")
  | Some high =>
      match randint_check low high dt with
      | Some e => raise e
      | None =>
          unseeded_draw (RandInt low high) (t_shape input)
            (default (t_device input) dev) dt
      end
  end.

(** [torch.cat(tensors, dim=0)]: refuses an empty list, tensors living on
    different devices, and tensors whose sizes differ outside dimension 0. *)
Definition cat_compatible (t0 t : tensor) : bool :=
  bool_decide (t_device t = t_device t0) &&
  bool_decide (tail (t_shape t) = tail (t_shape t0)) &&
  bool_decide (t_shape t ≠ []).

Definition torch_cat (tensors : list tensor) : Py tensor :=
  match tensors with
  | [] => raise (RuntimeError "torch.cat(): expected a non-empty list of Tensors")
  | t0 :: _ =>
      if forallb (cat_compatible t0) tensors then
        ret (Tensor (sum_list ((λ t, hd 0 (t_shape t)) <$> tensors) :: tail (t_shape t0))
                    (concat (t_data <$> tensors))
                    (t_device t0) (t_dtype t0))
      else raise (RuntimeError "torch.cat(): tensors cannot be concatenated")
  end.

(** [tensor.to(device)]; [tensor.to(None)] leaves the tensor where it is. *)
Definition tensor_to (dev : option device) (t : tensor) : tensor :=
  Tensor (t_shape t) (t_data t) (default (t_device t) dev) (t_dtype t).

Definition print (line : string) : Py unit := λ w,
  (Return (), World (heap w) (defaults w) (history w) (stdout w ++ [line])).

(** ** randtools.py *)

(** [generators * k] *)
Definition list_mul {A} (l : list A) (k : nat) : list A := concat (replicate k l).

Definition invalid_batch_size (n g : nat) : py_error :=
  ValueError ("shape[0] (" +:+ pretty n +:+
              ") needs to be a multiple of len(generators) (" +:+ pretty g +:+ ")").

(** [shape[0] % len(generators) != 0], with the exceptions the
    subscript and the modulo can raise. *)
Definition batch_mismatch (shape : list nat) (generators : list gen_ref) : Py bool :=
  match shape with
  | [] => raise IndexError
  | n :: _ =>
      if decide (length generators = 0) then raise ZeroDivisionError
      else ret (bool_decide (n mod length generators ≠ 0))
  end.

(** The body shared by [batched_rand] and [batched_randn]; they differ in
    the entry point they call ([torch.rand] / [torch.randn]) only. *)
Definition batched (draw : list nat → gen_ref → device → dtype → Py tensor)
    (shape : list nat) (generators : list gen_ref)
    (dev : device) (dt : dtype) : Py tensor :=
  let! bad := batch_mismatch shape generators in
  if bad : bool then
    raise (invalid_batch_size (hd 0 shape) (length generators))
  else
    let! slices := comprehension
      (λ generator w,
         draw (1 :: tail shape) generator (g_device (heap w generator)) dt w)
      (list_mul generators (hd 0 shape / length generators)) in
    let! latents := torch_cat slices in
    ret (tensor_to (Some dev) latents).

Definition batched_rand := batched torch_rand.
Definition batched_randn := batched torch_randn.

(** *** class TorchRandOverride *)

Record TorchRandOverride := { generators : list gen_ref }.

Definition randn_like (self : TorchRandOverride) (input : tensor)
    (dt : option dtype) (dev : option device) : Py tensor :=
  let! bad := batch_mismatch (t_shape input) (generators self) in
  if bad : bool then
    (* kwargs["dtype"] / kwargs["device"] are set when given *)
    torch_randn_like input dt dev
  else
    let dev := default (t_device input) dev in
    let dt := default (t_dtype input) dt in
    batched_randn (t_shape input) (generators self) dev dt.

(** [low] and [high] may come positionally ([args]) or by keyword. *)
Definition randint_bounds (args : list Z) (high low : option Z) : Z * option Z :=
  let '(low, high) :=
    match args with
    | [a] => (low, Some a)
    | a :: b :: _ => (Some a, Some b)
    | [] => (low, high)
    end in
  (default 0%Z low, high).

Definition randint_like (self : TorchRandOverride) (input : tensor)
    (args : list Z) (high low : option Z)
    (dt : option dtype) (dev : option device) : Py tensor :=
  let '(low, high) := randint_bounds args high low in
  let! bad := batch_mismatch (t_shape input) (generators self) in
  if bad : bool then
    let! _ := print "Skip" in
    torch_randint_like input low high dt dev
  else
    let! slices := comprehension
      (λ generator w,
         torch_randint (1 :: tail (t_shape input)) low high generator
           (g_device (heap w generator)) dt w)
      (generators self) in
    let! latents := torch_cat slices in
    ret (tensor_to dev latents).

(** *** tracker *)

(** What [inspect.getframeinfo(caller_frame)] yields. *)
Record frame_info := FrameInfo {
  filename : string;
  lineno : nat;
  function : string
}.

Global Instance frame_info_eq_dec : EqDecision frame_info.
Proof. solve_decision. Defined.

Definition fullstr (f : frame_info) : string :=
  filename f +:+ ":" +:+ pretty (lineno f) +:+ ":" +:+ function f.


(** The interpreter state the wrappers live in: torch's state, the module
    global [warned] and the records the module logger has taken. *)
Record process := Process {
  torch_state : world;
  warned : gset string;
  log : list string
}.

Definition in_torch {A} (m : Py A) : Eff process A := λ p,
  let r := m (torch_state p) in
  (r.1, Process r.2 (warned p) (log p)).

Section Tracker.
(** The logging sink belongs to the host: [sink_accepts records msg]
    tells whether it takes [msg] or raises while handling it. *)
Variable sink_accepts : list string → string → bool.
(** Python values passed as arguments, and values returned. *)
Context {value result : Type}.

Definition logger_warn (msg : string) : Eff process unit := λ p,
  if sink_accepts (log p) msg then
    (Return (), Process (torch_state p) (warned p) (log p ++ [msg]))
  else (Raise LoggingError, p).

Definition warned_add (key : string) : Eff process unit := λ p,
  (Return (), Process (torch_state p) ({[key]} ∪ warned p) (log p)).

Definition warning (key : string) : string :=
  "Non-deterministic rand called at " +:+ key.

Definition entry_point : Type := list value → gmap string value → Py result.

Definition tracker (wrapped : entry_point)
    (caller_frame : frame_info) (args : list value) (kwargs : gmap string value)
    : Eff process result :=
  let! _ :=
    if decide (kwargs !! "generator" = None) then
      λ p,
        if decide (fullstr caller_frame ∈ warned p) then ret () p
        else
          (let! _ := logger_warn (warning (fullstr caller_frame)) in
           warned_add (fullstr caller_frame)) p
    else ret () in
  in_torch (wrapped args kwargs).

(** The six entry points [warn_on_nondeterministic_rand] replaces. *)
Record torch_entries (E : Type) := TorchEntries {
  rand : E; rand_like : E; randn : E; randn_like_ : E;
  randint : E; randint_like_ : E
}.

Definition warn_on_nondeterministic_rand (torch : torch_entries entry_point)
    : torch_entries (frame_info → list value → gmap string value → Eff process result) :=
  TorchEntries _
    (tracker (rand _ torch)) (tracker (rand_like _ torch))
    (tracker (randn _ torch)) (tracker (randn_like_ _ torch))
    (tracker (randint _ torch)) (tracker (randint_like_ _ torch)).

(** One call of a wrapper: where it comes from and what it passes. *)
Record call := Call {
  c_frame : frame_info;
  c_args : list value;
  c_kwargs : gmap string value
}.

(** The interpreter state after a sequence of calls of one wrapper (the
    caller may catch what a call raises and go on). *)
Definition run_calls (wrapped : entry_point) (calls : list call)
    (p : process) : process :=
  foldl (λ p c, (tracker wrapped (c_frame c) (c_args c) (c_kwargs c) p).2)
        p calls.

End Tracker.

End Torch.

(** ** Vocabulary of the statements *)

Section Vocabulary.
Context `{TB : TorchBackend}.

(** The generator state one draw call leaves behind. *)
Definition advance (d : distribution) (dt : dtype) (size : list nat)
    (st : gstate) : gstate := (sample d dt size st).2.

(** How often the object [r] is listed in [rs]. *)
Definition occurrences (r : gen_ref) (rs : list gen_ref) : nat :=
  length (filter (λ x, x = r) rs).

(** The slice torch hands back for position [i] of the list [rs] of
    generators when the draws are made in list order from world [w]:
    the generator [r] at that position has been drawn from once for each
    earlier position that lists the same object. *)
Definition expected_slice (d : distribution) (dt : dtype) (size : list nat)
    (w : world) (rs : list gen_ref) (i : nat) (r : gen_ref) : tensor :=
  Tensor size
    (sample d dt size
       (Nat.iter (occurrences r (take i rs)) (advance d dt size)
                 (g_state (heap w r)))).1
    (g_device (heap w r)) dt.

(** The [i]-th single-sample slice of a batch whose samples have [m]
    elements each. *)
Definition slice_of (m : nat) (t : tensor) (i : nat) : list scalar :=
  take m (drop (i * m) (t_data t)).

(** The outcome of the partitioner once the slices are drawn. *)
Definition finish (dev : option device) (o : outcome tensor) : outcome tensor :=
  match o with
  | Return latents => Return (tensor_to dev latents)
  | Raise e => Raise e
  end.

(** What torch raises for the bounds of an integer draw of dtype [dt]
    through the entry point [f], if it refuses them. *)
Definition refused_bounds (f : string) (lo : Z) (hi : option Z) (dt : dtype)
    : option py_error :=
  match hi with
  | None => Some (invalid_arguments f)
  | Some hi => randint_check lo hi dt
  end.

(** Two worlds hold the same generators on the list [rs]. *)
Definition agree_on (rs : list gen_ref) (w1 w2 : world) : Prop :=
  ∀ r, r ∈ rs → heap w1 r = heap w2 r.

(** All generators of the list live on device [dev]. *)
Definition all_on (dev : device) (rs : list gen_ref) (w : world) : Prop :=
  ∀ r, r ∈ rs → g_device (heap w r) = dev.

(** Number of draw calls in a history that used generator [r]. *)
Definition draws_on (r : gen_ref) (h : list draw_event) : nat :=
  length (filter (λ e, ev_gen e = Some r) h).

(** A request to the batch partitioner: which of the two functions, and
    its arguments. *)
Record request := Request {
  rq_normal : bool;
  rq_shape : list nat;
  rq_device : device;
  rq_dtype : dtype
}.

(** The two partitioner functions under one name, and the draw kind of
    each. *)
Definition batched_draw (normal : bool) :=
  if normal then batched_randn else batched_rand.
Definition kind_of (normal : bool) : distribution :=
  if normal then Normal else Uniform.

Definition run_request (generators : list gen_ref) (rq : request) : Py tensor :=
  batched_draw (rq_normal rq)
    (rq_shape rq) generators (rq_device rq) (rq_dtype rq).

(** A sequence of calls; a caller that catches an exception goes on with
    the next call. *)
Fixpoint run_requests (generators : list gen_ref) (rqs : list request)
    (w : world) : list (outcome tensor) * world :=
  match rqs with
  | [] => ([], w)
  | rq :: rqs' =>
      let r := run_request generators rq w in
      let rest := run_requests generators rqs' r.2 in
      (r.1 :: rest.1, rest.2)
  end.

End Vocabulary.

(** ** A concrete engine for the examples

    A generator is a counter: a draw yields its current value in every
    element and moves it on by one. *)
Module Counter.

#[export] Program Instance backend : TorchBackend := {|
  gstate := nat;
  scalar := nat;
  sample := λ _ _ size st, (replicate (numel size) st, S st);
  randint_check := λ low high _,
    if (high <=? low)%Z
    then Some (RuntimeError "random_ expects 'from' to be less than 'to'")
    else None
|}.
Next Obligation. intros. simpl. apply length_replicate. Qed.
Next Obligation.
  intros low high dt Hle. simpl. exists "random_ expects 'from' to be less than 'to'".
  by rewrite (proj2 (Z.leb_le high low) Hle).
Qed.

(** Generator [r] is seeded with [100 * r]; all generators on the CPU. *)
Definition w0 : world :=
  World (λ r, Generator (100 * r) CPU) (λ _, 0) [] [].

(** As [w0], generator 1 on a GPU. *)
Definition w_mixed : world :=
  World (λ r, Generator (100 * r) (if decide (r = 1) then CUDA 0 else CPU))
        (λ _, 0) [] [].

(** A world holding the same generators 0 and 1 as [w0] and differing
    everywhere else. *)
Definition w_other : world :=
  World (λ r, Generator (if decide (r < 2) then 100 * r else 7) (CPU))
        (λ _, 3) [DrawEvent None Normal [1]] ["earlier output"].

(** [torch.rand(2)] called without generator, as a wrapped entry point. *)
Definition plain_rand : entry_point (value:=nat) (result:=tensor) :=
  λ _ _, unseeded_draw Uniform [2] CPU Float32.

Definition sampler_line_10 : frame_info := FrameInfo "sampler.py" 10 "step".
Definition sampler_line_20 : frame_info := FrameInfo "sampler.py" 20 "step".

Definition p0 : process := Process w0 ∅ [].

(** Two calls from line 10 and one from line 20, none with a generator. *)
Definition three_calls : list (call (value:=nat)) :=
  [Call sampler_line_10 [] ∅; Call sampler_line_10 [] ∅;
   Call sampler_line_20 [] ∅].

Definition accept_all : list string → string → bool := λ _ _, true.
Definition reject_all : list string → string → bool := λ _ _, false.

End Counter.

(** ** Names for the six entry points of torch that are wrapped *)

Inductive entry_name :=
  | Rand | RandLike | Randn | RandnLike | Randint | RandintLike.

Definition get_entry {E : Type} (name : entry_name) (torch : torch_entries E) : E :=
  match name with
  | Rand => rand E torch
  | RandLike => rand_like E torch
  | Randn => randn E torch
  | RandnLike => randn_like_ E torch
  | Randint => randint E torch
  | RandintLike => randint_like_ E torch
  end.

(** ** logging.py: [StoreHandler] *)

(** [l[start:]] for a Python list and any integer [start]. *)
Definition py_slice_from {A} (start : Z) (l : list A) : list A :=
  let len := Z.of_nat (length l) in
  let first := if (start <? 0)%Z then Z.max (len + start) 0 else Z.min start len in
  drop (Z.to_nat first) l.

Section StoreHandler.
(** Creation times are floats; nothing here computes with them. *)
Context {timestamp : Type}.

(** The attributes of a [logging.LogRecord] that [emit] reads.  [message]
    exists only once a formatter has formatted the record. *)
Record log_record := LogRecord {
  rec_created : timestamp;
  rec_name : string;
  rec_message : option string
}.

(** The dict [emit] stores. *)
Record log_entry := LogEntry {
  created : timestamp;
  name : string;
  message : string
}.

Record store_handler := StoreHandlerState {
  logs : list log_entry;
  max_len : Z
}.

Inductive emit_result :=
  | Emitted (self : store_handler)
  | AttributeError (attribute : string).

(** [StoreHandler.__init__] *)
Definition store_handler_init : store_handler := StoreHandlerState [] 1000.

(** [StoreHandler.emit]; [filter] is [logging.Filterer.filter] with the
    filters attached to the handler. *)
Definition emit (filter : log_record → bool) (self : store_handler)
    (record : log_record) : emit_result :=
  if filter record then
    match rec_message record with
    | None => AttributeError "message"
    | Some msg =>
        let logs' := logs self ++ [LogEntry (rec_created record) (rec_name record) msg] in
        Emitted (StoreHandlerState (py_slice_from (- max_len self) logs') (max_len self))
    end
  else Emitted self.

(** A sequence of [emit] calls, up to the first that raises. *)
Fixpoint emit_all (filter : log_record → bool) (self : store_handler)
    (records : list log_record) : emit_result :=
  match records with
  | [] => Emitted self
  | record :: records' =>
      match emit filter self record with
      | Emitted self' => emit_all filter self' records'
      | AttributeError a => AttributeError a
      end
  end.

(** The entries of the records that pass the filter, for formatted
    records. *)
Definition entries_of (filter : log_record → bool) (records : list log_record)
    : list log_entry :=
  omap (λ r, if filter r
             then LogEntry (rec_created r) (rec_name r) <$> rec_message r
             else None) records.

End StoreHandler.

(** ** images.py

    Images are BCHW tensors.  A channel of one image (an H x W array of
    floats) is a [plane]; the operations below move planes around and
    never compute with their elements, so planes are a parameter. *)

(** [l[start:stop]] for a Python list and any integers. *)
Definition py_index (len : nat) (i : Z) : nat :=
  Z.to_nat (if (i <? 0)%Z then Z.max (Z.of_nat len + i) 0
            else Z.min i (Z.of_nat len)).

Definition py_slice {A} (start stop : Z) (l : list A) : list A :=
  let first := py_index (length l) start in
  let last := py_index (length l) stop in
  take (last - first) (drop first l).

Section Images.
Context {plane : Type} `{Inhabited plane}.
(** [torch.zeros_like] and [torch.ones_like] of a plane. *)
Variables (zeros_like ones_like : plane → plane).

(** [n_channels] is [tensor.shape[1]]; it is there even when the batch
    is empty. *)
Record bchw := BCHW {
  n_channels : nat;
  images : list (list plane)
}.

Definition bchw_wf (t : bchw) : Prop :=
  Forall (λ im, length im = n_channels t) (images t).

(** [tensor[:, idx]] with a list of channel indices. *)
Definition index_channels (idx : list nat) (t : bchw) : outcome bchw :=
  if forallb (λ i, Nat.ltb i (n_channels t)) idx then
    Return (BCHW (length idx) ((λ im, (λ i, im !!! i) <$> idx) <$> images t))
  else Raise IndexError.

(** [tensor[:, i] = f(tensor[0][i])] *)
Definition fill_channel (f : plane → plane) (i : nat) (t : bchw) : outcome bchw :=
  match images t with
  | [] => Raise IndexError
  | im0 :: _ =>
      if Nat.ltb i (n_channels t) then
        Return (BCHW (n_channels t) ((λ im, <[i := f (im0 !!! i)]> im) <$> images t))
      else Raise IndexError
  end.

(** The loop [for i, c in enumerate(outchannels)] of [channelmap], from
    index [i] on. *)
Fixpoint channelmap_fill (i : nat) (outchannels : list nat) (t : bchw)
    : outcome bchw :=
  match outchannels with
  | [] => Return t
  | c :: rest =>
      let step :=
        if decide (c = 4) then fill_channel zeros_like i t
        else if decide (c = 5) then fill_channel ones_like i t
        else Return t in
      match step with
      | Return t' => channelmap_fill (S i) rest t'
      | Raise e => Raise e
      end
  end.

Definition channelmap (tensor : bchw) (srcchannels : list nat) : outcome bchw :=
  let outchannels := filter (λ x, x ≠ 6) srcchannels in
  let cpychannels :=
    (λ x, if Nat.ltb x (n_channels tensor) then x else 0) <$> outchannels in
  match index_channels cpychannels tensor with
  | Return tensor' => channelmap_fill 0 outchannels tensor'
  | Raise e => Raise e
  end.

(** The plane [channelmap] puts in an output channel asked for by code
    [c], for an image [im] of a batch whose first image is [im0]: codes 4
    and 5 give zeros and ones, a code below the number [n] of channels
    gives that channel, and any other code gives channel 0. *)
Definition mapped_plane (im0 im : list plane) (n : nat) (c : nat) : plane :=
  let src := if Nat.ltb c n then c else 0 in
  if decide (c = 4) then zeros_like (im0 !!! src)
  else if decide (c = 5) then ones_like (im0 !!! src)
  else im !!! src.

(** The code that the loop started at index [i] applies to channel [j]. *)
Definition code_at (i : nat) (outchannels : list nat) (j : nat) : option nat :=
  if Nat.ltb j i then None else outchannels !! (j - i).

Definition filled_plane (i : nat) (outchannels : list nat) (im0 : list plane)
    (j : nat) (p : plane) : plane :=
  match code_at i outchannels j with
  | Some 4 => zeros_like (im0 !!! j)
  | Some 5 => ones_like (im0 !!! j)
  | _ => p
  end.

(** [crop]: the same slice of rows and columns of every plane; here on
    one plane given as its rows. *)
Definition crop {A} (rows : list (list A)) (top left height width : Z)
    : list (list A) :=
  py_slice left (left + width) <$> py_slice top (top + height) rows.

End Images.

Section Normalise.
Context {plane : Type} `{Inhabited plane}.
(** [torch.concat((tensor, alpha), dim=1)] for the plane of zeros
    [alpha = torch.zeros(B, 1, H, W)]: what it yields depends on the
    device and dtype of the tensor, which are not modelled. *)
Variable concat_alpha : bchw (plane:=plane) → outcome (bchw (plane:=plane)).

(** An image argument is CHW or BCHW; [tensor[None, ...]] makes the first
    a batch of one. *)
Inductive image_arg :=
  | Chw (channels : list plane)
  | Bchw (t : bchw (plane:=plane)).

Definition as_bchw (tensor : image_arg) : bchw (plane:=plane) :=
  match tensor with
  | Chw channels => BCHW (length channels) [channels]
  | Bchw t => t
  end.

(** The branch [channels == 3] of [normalise_tensor]. *)
Definition normalise_rgb (tensor : bchw (plane:=plane)) : outcome bchw :=
  if Nat.leb 3 (n_channels tensor) then index_channels [0; 1; 2] tensor
  else index_channels [0; 0; 0] tensor.

Definition normalise_tensor (tensor : image_arg) (channels : Z) : outcome bchw :=
  let tensor := as_bchw tensor in
  if decide (channels = 1%Z) then index_channels [0] tensor
  else if decide (channels = 3%Z) then normalise_rgb tensor
  else if decide (channels = 4%Z) then
    if Nat.leb 4 (n_channels tensor) then index_channels [0; 1; 2; 3] tensor
    else
      match normalise_rgb tensor with
      | Return tensor' => concat_alpha tensor'
      | Raise e => Raise e
      end
  else Raise (ValueError ("Unknown number of channels " +:+ pretty channels)).

(** The channel order of [toCV]: [tensor[:, [2, 1, 0, 3][: tensor.shape[1]]]]. *)
Definition to_cv_channels (tensor : bchw (plane:=plane)) : outcome bchw :=
  index_channels (take (n_channels tensor) [2; 1; 0; 3]) tensor.

End Normalise.

(** [gaussianblur]: the kernel size computed from [ceil(sigma * 6)]. *)
Definition gaussian_kernel_size (ceil_6_sigma : Z) : Z :=
  (ceil_6_sigma - ceil_6_sigma `mod` 2 + 1)%Z.

Section GaussianBlur.
(** Floats, [ceil(sigma * 6)] and torchvision's [gaussian_blur] are
    taken as given. *)
Context {float image : Type}.
Variable ceil_times_6 : float → Z.
Variable gaussian_blur : image → list Z → float * float → image.

(** [sigma] is a scalar or a pair. *)
Inductive sigma_arg :=
  | ScalarSigma (s : float)
  | PairSigma (s0 s1 : float).

Definition gaussianblur (tensor : image) (sigma : sigma_arg) : image :=
  let sigma :=
    match sigma with
    | ScalarSigma s => (s, s)
    | PairSigma s0 s1 => (s0, s1)
    end in
  let kernel := [ceil_times_6 sigma.1; ceil_times_6 sigma.2] in
  let kernel := gaussian_kernel_size <$> kernel in
  gaussian_blur tensor kernel sigma.

End GaussianBlur.

(** ** More concrete inputs for the examples *)

Module Inputs.
Import Counter.

Definition override01 : TorchRandOverride := {| generators := [0; 1] |}.
Definition input42 : tensor := Tensor [4; 2] [] CPU Float32.
Definition input32 : tensor := Tensor [3; 2] [] CPU Float32.

(** An entry point that raises. *)
Definition failing_rand : entry_point (value:=nat) (result:=tensor) :=
  λ _ _, raise (RuntimeError "out of memory").

(** [torch.randn(2, generator=...)], reading the generator reference
    from the keyword arguments. *)
Definition seeded_randn : entry_point (value:=nat) (result:=tensor) :=
  λ _ kwargs, torch_randn [2] (default 0 (kwargs !! "generator")) CPU Float32.

Definition seeded_calls : list (call (value:=nat)) :=
  [Call sampler_line_10 [] {["generator" := 0]};
   Call sampler_line_20 [] {["generator" := 1]}].

Definition six_entries : torch_entries (entry_point (value:=nat) (result:=tensor)) :=
  TorchEntries _ plain_rand plain_rand plain_rand plain_rand plain_rand plain_rand.

Definition formatted (n : nat) : log_record (timestamp:=nat) :=
  LogRecord n "gyre" (Some "ready").
Definition unformatted : log_record (timestamp:=nat) :=
  LogRecord 7 "gyre" None.
Definition keep_all : log_record (timestamp:=nat) → bool := λ _, true.

End Inputs.

(** ** logging.py: [StdCapture]

    Text is a list of characters.  Which characters end a line for
    [str.splitlines] is a parameter ([is_boundary]); line feed and
    carriage return are among them. *)

Section StdCapture.
Context {char : Type} `{EqDecision char}.
Variables (newline cr : char) (is_boundary : char → bool).

(** [str.splitlines()]: [cur] is the line read so far, [after_cr] tells
    that the previous character was a carriage return, whose line feed,
    if one follows, belongs to the same line break. *)
Fixpoint splitlines_go (cur : list char) (after_cr : bool) (s : list char)
    : list (list char) :=
  match s with
  | [] => match cur with [] => [] | _ :: _ => [cur] end
  | c :: s' =>
      if after_cr && bool_decide (c = newline) then splitlines_go [] false s'
      else if is_boundary c then cur :: splitlines_go [] (bool_decide (c = cr)) s'
      else splitlines_go (cur ++ [c]) false s'
  end.

Definition splitlines (s : list char) : list (list char) :=
  splitlines_go [] false s.

(** [s.endswith("\n")] *)
Definition ends_with_newline (s : list char) : bool :=
  match list.last s with
  | Some c => bool_decide (c = newline)
  | None => false
  end.

(** The attributes [write] uses; [std], the stream that is replaced, is
    not among them. *)
Record std_capture := StdCaptureState {
  level : nat;
  line_buffer : list char
}.

(** One call [logger.log(level, line)] on [logging.getLogger(name)]. *)
Record log_call := LogCall {
  logger_name : string;
  log_level : nat;
  log_line : list char
}.

(** [StdCapture.write]: the calls made on the loggers, or the exception,
    and the object afterwards.  [caller_module] is the [__name__] of the
    calling frame's globals, [None] when looking it up raises.
    [list.pop()] of an empty list raises IndexError. *)
Definition write (self : std_capture) (caller_module : option string)
    (text : list char) : outcome (list log_call) * std_capture :=
  let caller_module_name := default "gyre" caller_module in
  let self := StdCaptureState (level self) (line_buffer self ++ text) in
  if bool_decide (newline ∈ line_buffer self) then
    let text := splitlines (line_buffer self) in
    if ends_with_newline (line_buffer self) then
      (Return (LogCall caller_module_name (level self) <$> text),
       StdCaptureState (level self) [])
    else
      match list.last text with
      | None => (Raise IndexError, self)
      | Some line =>
          (Return (LogCall caller_module_name (level self) <$> removelast text),
           StdCaptureState (level self) line)
      end
  else (Return [], self).

(** The text of lines that each ended with a line feed. *)
Definition with_newlines (lines : list (list char)) : list char :=
  concat ((λ l, l ++ [newline]) <$> lines).

(** Text in which the line feed is the only line boundary. *)
Definition newline_only (s : list char) : Prop :=
  Forall (λ c, is_boundary c = true → c = newline) s.

End StdCapture.

(** Characters below 256 and the line boundaries of [str.splitlines]
    among them. *)
Module Latin1.

Definition newline : ascii := "010"%char.
Definition cr : ascii := "013"%char.

Definition is_boundary (c : ascii) : bool :=
  bool_decide (nat_of_ascii c ∈ [10; 11; 12; 13; 28; 29; 30; 133]).

Definition write := write newline cr is_boundary.
Definition text (s : string) : list ascii := String.list_ascii_of_string s.

(** [StdCapture(sys.stdout, logging.INFO)] *)
Definition stdout_capture : std_capture (char:=ascii) := StdCaptureState 20 [].

(** Two lines and the beginning of a third. *)
Definition two_lines_and_more : list ascii :=
  text "one" ++ [newline] ++ text "two" ++ [newline] ++ text "thr".

End Latin1.

(** ** text_embedding.py: [TextEmbedding.repeat] *)

(** [l] cut into consecutive groups of [n] elements. *)
Fixpoint chunks_go {A} (fuel n : nat) (l : list A) : list (list A) :=
  match fuel with
  | 0 => []
  | S fuel' =>
      match l with
      | [] => []
      | _ :: _ => take n l :: chunks_go fuel' n (drop n l)
      end
  end.

Definition chunks {A} (n : nat) (l : list A) : list (list A) :=
  chunks_go (length l) n l.

Module TextEmbedding.
Section Repeat.
(** The embedding of one token (the last axis); nothing here looks
    inside. *)
Context {row : Type}.

(** A tensor of shape [(bs_embed, seq_len, dim)]: one list of [seq_len]
    rows per prompt. *)
Record embedding := Embedding {
  seq_len : nat;
  emb_data : list (list row)
}.

Definition embedding_wf (e : embedding) : Prop :=
  Forall (λ rows, length rows = seq_len e) (emb_data e).

Definition repeat (e : embedding) (count : nat) : outcome embedding :=
  let bs_embed := length (emb_data e) in
  (* embedding.repeat(1, count, 1) *)
  let repeated := (λ rows, concat (replicate count rows)) <$> emb_data e in
  (* .view(bs_embed * count, seq_len, -1): rows are regrouped in memory
     order; without elements the size -1 cannot be inferred *)
  if decide (bs_embed * count * seq_len e = 0) then
    Raise (RuntimeError "cannot reshape tensor of 0 elements: the unspecified dimension size -1 is ambiguous")
  else
    Return (Embedding (seq_len e) (chunks (seq_len e) (concat repeated))).

End Repeat.
End TextEmbedding.

(** ** Concrete images for the examples: a plane is a number *)

Module Pictures.

Definition zeros (_ : nat) : nat := 0.
Definition ones (_ : nat) : nat := 1.

(** Two images with three channels each. *)
Definition rgb2 : bchw (plane:=nat) := BCHW 3 [[10; 11; 12]; [20; 21; 22]].
(** One image with five channels. *)
Definition five : bchw (plane:=nat) := BCHW 5 [[10; 11; 12; 13; 14]].
Definition no_channels : bchw (plane:=nat) := BCHW 0 [[]].
Definition empty_batch : bchw (plane:=nat) := BCHW 3 [].

(** A stand-in for the concatenation with the alpha plane. *)
Definition add_alpha (t : bchw (plane:=nat)) : outcome (bchw (plane:=nat)) :=
  Return (BCHW (S (n_channels t)) ((λ im, im ++ [0]) <$> images t)).

(** Two prompts of two tokens each; a row is a number. *)
Definition two_prompts : TextEmbedding.embedding (row:=nat) :=
  TextEmbedding.Embedding 2 [[1; 2]; [3; 4]].

(** A 3 x 4 plane given by its rows. *)
Definition grid : list (list nat) := [[0; 1; 2; 3]; [10; 11; 12; 13]; [20; 21; 22; 23]].

End Pictures.

(** ** Facts about list repetition and counting *)

Section ListFacts.
Context {A : Type}.

Lemma list_mul_S (l : list A) k : list_mul l (S k) = l ++ list_mul l k.
Proof. reflexivity. Qed.

Lemma length_list_mul (l : list A) k : length (list_mul l k) = k * length l.
Proof.
  induction k as [|k IH]; [done|].
  rewrite list_mul_S, length_app, IH. lia.
Qed.

Lemma lookup_list_mul (l : list A) k i :
  i < k * length l → list_mul l k !! i = l !! (i mod length l).
Proof.
  revert i. induction k as [|k IH]; intros i Hi; [lia|].
  rewrite list_mul_S.
  destruct (decide (i < length l)) as [Hlt|Hge].
  - rewrite lookup_app_l by done. by rewrite Nat.mod_small.
  - rewrite lookup_app_r by lia.
    rewrite IH by lia. f_equal.
    assert (length l ≠ 0) by lia.
    replace i with ((i - length l) + 1 * length l) at 2 by lia.
    by rewrite Nat.Div0.mod_add.
Qed.

Lemma list_mul_nil_iff (l : list A) k : list_mul l k = [] ↔ k = 0 ∨ l = [].
Proof.
  rewrite <-!length_zero_iff_nil, length_list_mul. nia.
Qed.

Lemma elem_of_list_mul (l : list A) k x : x ∈ list_mul l k → x ∈ l.
Proof.
  induction k as [|k IH]; [by intros ?%elem_of_nil|].
  rewrite list_mul_S, elem_of_app. tauto.
Qed.

End ListFacts.

Lemma occurrences_cons r x rs :
  occurrences r (x :: rs) = (if decide (x = r) then 1 else 0) + occurrences r rs.
Proof.
  unfold occurrences. rewrite filter_cons. by destruct (decide (x = r)).
Qed.

Lemma occurrences_app r rs1 rs2 :
  occurrences r (rs1 ++ rs2) = occurrences r rs1 + occurrences r rs2.
Proof. unfold occurrences. by rewrite list.filter_app, length_app. Qed.

Lemma occurrences_list_mul r rs k :
  occurrences r (list_mul rs k) = k * occurrences r rs.
Proof.
  induction k as [|k IH]; [done|].
  rewrite list_mul_S, occurrences_app, IH. lia.
Qed.

Lemma occurrences_not_in r rs : r ∉ rs → occurrences r rs = 0.
Proof.
  induction rs as [|x rs IH]; [done|].
  rewrite not_elem_of_cons, occurrences_cons. intros [? ?].
  rewrite decide_False by done. by rewrite IH.
Qed.

Lemma occurrences_NoDup g gens :
  NoDup gens → g ∈ gens → occurrences g gens = 1.
Proof.
  intros Hnd Hg. induction Hnd as [|x l Hx Hnd IH].
  - by apply elem_of_nil in Hg.
  - rewrite occurrences_cons. apply elem_of_cons in Hg as [->|Hg].
    + rewrite decide_True by done. by rewrite occurrences_not_in.
    + rewrite decide_False by (intros ->; done). by rewrite IH.
Qed.

(** Equal-length chunks can be read back out of their concatenation. *)
Lemma take_drop_concat {A} (m : nat) (ls : list (list A)) i l :
  Forall (λ x, length x = m) ls → ls !! i = Some l →
  take m (drop (i * m) (concat ls)) = l.
Proof.
  intros Hall. revert i. induction Hall as [|x ls Hx Hall IH]; intros i Hi; [done|].
  destruct i as [|i].
  - simplify_eq/=. rewrite drop_0. by rewrite take_app_length'.
  - change (S i * m) with (m + i * m). simpl in Hi |- *.
    rewrite <-drop_drop, drop_app_length' by done. by apply IH.
Qed.

(** ** The list comprehension over the generators *)

Section Draws.
Context `{TB : TorchBackend}.

Lemma comprehension_cons {S A B} (f : A → Eff S B) x xs s :
  comprehension f (x :: xs) s =
  match f x s with
  | (Return y, s1) =>
      match comprehension f xs s1 with
      | (Return ys, s2) => (Return (y :: ys), s2)
      | (Raise e, s2) => (Raise e, s2)
      end
  | (Raise e, s1) => (Raise e, s1)
  end.
Proof.
  simpl. unfold bind. destruct (f x s) as [[y|e] s1]; [|done].
  by destruct (comprehension f xs s1) as [[ys|e] s2].
Qed.

Lemma comprehension_ext {S A B} (f g : A → Eff S B) xs s :
  (∀ x s, f x s = g x s) → comprehension f xs s = comprehension g xs s.
Proof.
  intros Hfg. revert s. induction xs as [|x xs IH]; intros s; [done|].
  rewrite !comprehension_cons, Hfg.
  destruct (g x s) as [[y|e] s1]; [|done]. by rewrite IH.
Qed.

(** A comprehension whose first call raises. *)
Lemma comprehension_raise {S A B} (f : A → Eff S B) e x xs s :
  f x s = (Raise e, s) → comprehension f (x :: xs) s = (Raise e, s).
Proof. intros Hf. by rewrite comprehension_cons, Hf. Qed.

(** What the comprehension of single-sample draws does once torch
    carries them out, for any list of generator references (repeated
    objects included). *)
Lemma comprehension_draws d dt size rs w :
  ∃ w',
    comprehension
      (λ g w, seeded_draw d size g (g_device (heap w g)) dt w) rs w
    = (Return (imap (expected_slice d dt size w rs) rs), w') ∧
    (∀ g, heap w' g =
          Generator (Nat.iter (occurrences g rs) (advance d dt size)
                              (g_state (heap w g)))
                    (g_device (heap w g))) ∧
    defaults w' = defaults w ∧
    history w' = history w ++ ((λ g, DrawEvent (Some g) d size) <$> rs) ∧
    stdout w' = stdout w.
Proof.
  revert w. induction rs as [|x rs IH]; intros w.
  - exists w. split_and!; try done.
    + intros g. by destruct (heap w g).
    + by rewrite app_nil_r.
  - rewrite comprehension_cons. unfold seeded_draw at 1.
    set (w1 := World _ _ _ _).
    destruct (IH w1) as (w2 & -> & Hheap & Hdef & Hhist & Hout).
    exists w2. split_and!.
    + f_equal. f_equal. rewrite imap_cons. f_equal.
      apply imap_ext. intros i g Hg.
      unfold compose, expected_slice. rewrite firstn_cons, occurrences_cons.
      subst w1. cbn [heap].
      destruct (decide (x = g)) as [->|Hne].
      * rewrite fn_lookup_insert. cbn [g_state g_device].
        change (1 + ?n) with (S n). by rewrite Nat.iter_succ_r.
      * by rewrite fn_lookup_insert_ne.
    + intros g. rewrite Hheap, occurrences_cons. subst w1. cbn [heap].
      destruct (decide (x = g)) as [->|Hne].
      * rewrite fn_lookup_insert. cbn [g_state g_device].
        change (1 + ?n) with (S n). by rewrite Nat.iter_succ_r.
      * by rewrite fn_lookup_insert_ne.
    + done.
    + rewrite Hhist. subst w1. cbn [history]. by rewrite <-app_assoc.
    + done.
Qed.

Lemma forallb_imap {A B} (p : B → bool) (f : nat → A → B) (l : list A) :
  (∀ i x, l !! i = Some x → p (f i x) = true) → forallb p (imap f l) = true.
Proof.
  revert f. induction l as [|x l IH]; intros f Hp; [done|].
  rewrite imap_cons. simpl. rewrite (Hp 0 x) by done. simpl.
  apply IH. intros i y Hy. by apply (Hp (S i)).
Qed.

Lemma sum_list_imap_ones {A B} (h : B → nat) (f : nat → A → B) (l : list A) :
  (∀ i x, h (f i x) = 1) → sum_list (h <$> imap f l) = length l.
Proof.
  revert f. induction l as [|x l IH]; intros f Hh; [done|].
  rewrite imap_cons, fmap_cons. simpl. rewrite Hh. f_equal.
  apply IH. intros i y. apply Hh.
Qed.

(** Concatenating the slices of a non-empty list of generators that all
    live on one device. *)
Lemma torch_cat_slices d dt trailing w rs dev0 w' :
  rs ≠ [] → all_on dev0 rs w →
  torch_cat (imap (expected_slice d dt (1 :: trailing) w rs) rs) w'
  = (Return (Tensor (length rs :: trailing)
               (concat (imap (λ i g,
                  t_data (expected_slice d dt (1 :: trailing) w rs i g)) rs))
               dev0 dt), w').
Proof.
  intros Hne Hdev. unfold torch_cat.
  destruct (imap _ rs) as [|t0 ts] eqn:Himap.
  { apply (f_equal length) in Himap. rewrite length_imap in Himap.
    by destruct rs. }
  rewrite <-Himap.
  assert (Ht0 : t_device t0 = dev0 ∧ t_shape t0 = 1 :: trailing ∧ t_dtype t0 = dt).
  { destruct rs as [|x rs']; [done|]. rewrite imap_cons in Himap.
    injection Himap as <- _. simpl. split; [|done].
    apply Hdev. apply elem_of_cons; by left. }
  destruct Ht0 as (Hd0 & Hs0 & Hdt0).
  rewrite forallb_imap.
  - unfold ret. rewrite sum_list_imap_ones by done.
    by rewrite fmap_imap, Hs0, Hd0, Hdt0.
  - intros i x Hx. unfold cat_compatible. simpl.
    rewrite Hd0, Hs0. simpl.
    rewrite !bool_decide_eq_true_2; [done|done|].
    apply Hdev. by eapply list_elem_of_lookup_2.
Qed.

Lemma torch_cat_world ts w : (torch_cat ts w).2 = w.
Proof.
  unfold torch_cat. destruct ts as [|t0 ts']; [done|].
  by destruct (forallb _ _).
Qed.

Lemma torch_cat_outcome ts w w' : (torch_cat ts w).1 = (torch_cat ts w').1.
Proof.
  unfold torch_cat. destruct ts as [|t0 ts']; [done|].
  by destruct (forallb _ _).
Qed.

Lemma cat_then_to dev ts w :
  (let! latents := torch_cat ts in ret (tensor_to dev latents)) w
  = (finish dev (torch_cat ts w).1, w).
Proof.
  unfold bind. pose proof (torch_cat_world ts w) as Hw.
  destruct (torch_cat ts w) as [[t|e] w']; simpl in *; by subst.
Qed.

Lemma batched_no_shape draw gens dev dt w :
  batched draw [] gens dev dt w = (Raise IndexError, w).
Proof. done. Qed.

Lemma batched_no_generators draw n tr dev dt w :
  batched draw (n :: tr) [] dev dt w = (Raise ZeroDivisionError, w).
Proof. done. Qed.

Lemma batched_mismatch draw n tr gens dev dt w :
  gens ≠ [] → n mod length gens ≠ 0 →
  batched draw (n :: tr) gens dev dt w
  = (Raise (invalid_batch_size n (length gens)), w).
Proof.
  intros Hne Hmod. unfold batched, bind, batch_mismatch.
  rewrite decide_False by (by destruct gens).
  unfold ret. by rewrite bool_decide_eq_true_2.
Qed.

Lemma batch_mismatch_cons n tr gens w :
  gens ≠ [] →
  batch_mismatch (n :: tr) gens w
  = (Return (bool_decide (n mod length gens ≠ 0)), w).
Proof.
  intros Hne. unfold batch_mismatch.
  by rewrite decide_False by (by destruct gens).
Qed.

(** The draws of a call whose batch size passes the check. *)
Lemma batched_run d n tr gens dev dt w :
  gens ≠ [] → n mod length gens = 0 →
  let cyc := list_mul gens (n / length gens) in
  ∃ w',
    batched (seeded_draw d) (n :: tr) gens dev dt w
    = (finish (Some dev)
         (torch_cat (imap (expected_slice d dt (1 :: tr) w cyc) cyc) w').1, w') ∧
    (∀ g, heap w' g =
          Generator (Nat.iter (occurrences g cyc) (advance d dt (1 :: tr))
                              (g_state (heap w g)))
                    (g_device (heap w g))) ∧
    defaults w' = defaults w ∧
    history w' = history w ++ ((λ g, DrawEvent (Some g) d (1 :: tr)) <$> cyc) ∧
    stdout w' = stdout w.
Proof.
  intros Hne Hmod cyc.
  destruct (comprehension_draws d dt (1 :: tr) cyc w)
    as (w' & Hrun & Hheap & Hdef & Hhist & Hout).
  exists w'. split; [|done].
  unfold batched. unfold bind at 1. unfold batch_mismatch.
  rewrite decide_False by (by destruct gens).
  unfold ret at 1. rewrite bool_decide_eq_false_2 by (by intros []).
  unfold bind at 1. cbn [hd tail]. fold cyc. rewrite Hrun.
  apply cat_then_to.
Qed.

(** With a floating-point dtype every draw is carried out. *)
Lemma batched_float d shape gens dev dt w :
  is_floating_point dt = true →
  batched (float_draw d) shape gens dev dt w
  = batched (seeded_draw d) shape gens dev dt w.
Proof.
  intros Hf. unfold batched, bind.
  destruct (batch_mismatch shape gens w) as [[[|]|e] w1]; [done| |done].
  rewrite (comprehension_ext _
    (λ generator w, seeded_draw d (1 :: tail shape) generator
                      (g_device (heap w generator)) dt w)); [done|].
  intros x s. unfold float_draw. by rewrite Hf.
Qed.

(** With an integer dtype no call returns, and none changes anything;
    the exception is a [RuntimeError] when the batch size passes the
    check. *)
Lemma batched_refused d shape gens dev dt :
  is_floating_point dt = false →
  ∃ e, (∀ w, batched (float_draw d) shape gens dev dt w = (Raise e, w)) ∧
       (∀ n tr, shape = n :: tr → gens ≠ [] → n mod length gens = 0 →
                ∃ msg, e = RuntimeError msg).
Proof.
  intros Hf. destruct shape as [|n tr].
  { exists IndexError. by split. }
  destruct (decide (gens = [])) as [->|Hne].
  { exists ZeroDivisionError. by split. }
  destruct (decide (n mod length gens = 0)) as [Hmod|Hmod].
  - destruct (list_mul gens (n / length gens)) as [|x cyc] eqn:Hcyc.
    + eexists. split.
      * intros w. unfold batched, bind. rewrite batch_mismatch_cons by done.
        rewrite bool_decide_eq_false_2 by (by intros []).
        cbn [hd tail]. rewrite Hcyc. reflexivity.
      * intros ? ? _ _ _. by eexists.
    + exists (not_implemented_for dt). split.
      * intros w. unfold batched, bind. rewrite batch_mismatch_cons by done.
        rewrite bool_decide_eq_false_2 by (by intros []).
        cbn [hd tail]. rewrite Hcyc.
        rewrite (comprehension_raise _ (not_implemented_for dt)); [done|].
        unfold float_draw. by rewrite Hf.
      * intros ? ? _ _ _. by eexists.
  - exists (invalid_batch_size n (length gens)). split.
    + intros w. by apply batched_mismatch.
    + intros n' tr' [= <- <-] _ Hmod'. done.
Qed.

Lemma expected_slice_agree d dt size w1 w2 rs i g :
  heap w1 g = heap w2 g →
  expected_slice d dt size w1 rs i g = expected_slice d dt size w2 rs i g.
Proof. unfold expected_slice. by intros ->. Qed.

Lemma batched_agree d shape gens dev dt w1 w2 :
  agree_on gens w1 w2 →
  (batched (float_draw d) shape gens dev dt w1).1
  = (batched (float_draw d) shape gens dev dt w2).1 ∧
  agree_on gens (batched (float_draw d) shape gens dev dt w1).2
                (batched (float_draw d) shape gens dev dt w2).2.
Proof.
  intros Hag. destruct (is_floating_point dt) eqn:Hf; cycle 1.
  { destruct (batched_refused d shape gens dev dt Hf) as (e & He & _).
    by rewrite !He. }
  rewrite !batched_float by done.
  destruct shape as [|n tr]; [done|].
  destruct (decide (gens = [])) as [->|Hne]; [done|].
  destruct (decide (n mod length gens = 0)) as [Hmod|Hmod].
  - destruct (batched_run d n tr gens dev dt w1 Hne Hmod)
      as (w1' & -> & Hh1 & _).
    destruct (batched_run d n tr gens dev dt w2 Hne Hmod)
      as (w2' & -> & Hh2 & _).
    cbn [fst snd]. split.
    + f_equal.
      assert (Hsl : imap (expected_slice d dt (1 :: tr) w1
                            (list_mul gens (n / length gens)))
                         (list_mul gens (n / length gens))
                  = imap (expected_slice d dt (1 :: tr) w2
                            (list_mul gens (n / length gens)))
                         (list_mul gens (n / length gens))).
      { apply imap_ext. intros i g Hg. apply expected_slice_agree, Hag.
        eapply elem_of_list_mul. by eapply list_elem_of_lookup_2. }
      rewrite Hsl. apply torch_cat_outcome.
    + intros g Hg. by rewrite Hh1, Hh2, (Hag g Hg).
  - by rewrite !batched_mismatch.
Qed.

Lemma run_request_agree gens rq w1 w2 :
  agree_on gens w1 w2 →
  (run_request gens rq w1).1 = (run_request gens rq w2).1 ∧
  agree_on gens (run_request gens rq w1).2 (run_request gens rq w2).2.
Proof.
  intros Hag. unfold run_request.
  destruct (rq_normal rq); by apply batched_agree.
Qed.

Lemma batched_draw_eq normal :
  batched_draw normal = batched (float_draw (kind_of normal)).
Proof. by destruct normal. Qed.

Lemma batched_draw_float normal shape gens dev dt w :
  is_floating_point dt = true →
  batched_draw normal shape gens dev dt w
  = batched (seeded_draw (kind_of normal)) shape gens dev dt w.
Proof. intros Hf. rewrite batched_draw_eq. by apply batched_float. Qed.

Lemma torch_cat_not_value_error ts w msg :
  (torch_cat ts w).1 ≠ Raise (ValueError msg).
Proof.
  unfold torch_cat. destruct ts as [|t0 ts']; [done|].
  by destruct (forallb _ _).
Qed.

Lemma torch_cat_data ts w t :
  (torch_cat ts w).1 = Return t → t_data t = concat (t_data <$> ts).
Proof.
  unfold torch_cat. destruct ts as [|t0 ts']; [done|].
  destruct (forallb _ _); [|done]. by intros [= <-].
Qed.

Lemma draws_on_app g h1 h2 :
  draws_on g (h1 ++ h2) = draws_on g h1 + draws_on g h2.
Proof. unfold draws_on. by rewrite list.filter_app, length_app. Qed.

Lemma draws_on_events g d size rs :
  draws_on g ((λ g', DrawEvent (Some g') d size) <$> rs) = occurrences g rs.
Proof.
  induction rs as [|x rs IH]; [done|].
  rewrite fmap_cons, occurrences_cons, <-IH. unfold draws_on.
  rewrite filter_cons. cbn [ev_gen].
  destruct (decide (x = g)) as [->|Hne].
  - by rewrite decide_True.
  - rewrite decide_False; [done|]. by intros [= ?].
Qed.

(** Reading sample [i] back out of a returned batch. *)
Lemma slice_of_batched d n tr gens dev dt w t i g :
  gens ≠ [] → n mod length gens = 0 →
  (batched (seeded_draw d) (n :: tr) gens dev dt w).1 = Return t →
  list_mul gens (n / length gens) !! i = Some g →
  slice_of (numel (1 :: tr)) t i
  = t_data (expected_slice d dt (1 :: tr) w
              (list_mul gens (n / length gens)) i g).
Proof.
  intros Hne Hmod Hret Hi.
  destruct (batched_run d n tr gens dev dt w Hne Hmod) as (w' & Hrun & _).
  rewrite Hrun in Hret. cbn [fst] in Hret.
  destruct (torch_cat _ w').1 as [latents|e] eqn:Hcat; [|done].
  injection Hret as <-. apply torch_cat_data in Hcat.
  unfold slice_of. cbn [tensor_to t_data]. rewrite Hcat.
  apply take_drop_concat.
  - rewrite fmap_imap. apply Forall_forall. intros l Hl.
    apply list_elem_of_In, list_elem_of_lookup in Hl as [j Hj].
    rewrite list_lookup_imap in Hj.
    destruct (_ !! j) as [g'|]; [|done]. injection Hj as <-.
    unfold compose, expected_slice. cbn [t_data]. apply sample_length.
  - rewrite list_lookup_fmap, list_lookup_imap, Hi. done.
Qed.

(** The draws of a call that goes through: non-empty batch, generators
    on one device. *)
Lemma batched_returns d n tr gens dev dt dev0 w :
  gens ≠ [] → 0 < n → n mod length gens = 0 → all_on dev0 gens w →
  let cyc := list_mul gens (n / length gens) in
  length cyc = n ∧
  (batched (seeded_draw d) (n :: tr) gens dev dt w).1
  = Return (Tensor (n :: tr)
              (concat (imap (λ i g,
                 t_data (expected_slice d dt (1 :: tr) w cyc i g)) cyc))
              dev dt).
Proof.
  intros Hne Hpos Hmod Hdev cyc.
  assert (HG : length gens ≠ 0) by (by destruct gens).
  assert (Hlen : length cyc = n).
  { unfold cyc. rewrite length_list_mul.
    pose proof (Nat.Div0.div_exact n (length gens)) as [_ Hex].
    rewrite (Hex Hmod) at 2. lia. }
  split; [done|].
  destruct (batched_run d n tr gens dev dt w Hne Hmod) as (w' & -> & _).
  fold cyc. cbn [fst].
  rewrite (torch_cat_slices d dt tr w cyc dev0 w').
  - cbn [fst finish tensor_to t_shape t_data t_dtype t_device default].
    by rewrite Hlen.
  - intros Hnil. rewrite Hnil in Hlen. simpl in Hlen. lia.
  - intros g Hg. apply Hdev. by eapply elem_of_list_mul.
Qed.

End Draws.

(** ** The batch partitioner: [batched_rand] and [batched_randn] *)

Section Partitioner.
Context `{TB : TorchBackend}.

(** C1.  The output of the batched draw is a function of the request and
    of the generators on the Stream List alone: from two worlds that hold
    the same generators (same seeds, same positions) a call returns the
    same array, element for element, and so does every call of a whole
    sequence of calls replayed after resetting the generators; the
    generators are again the same afterwards. *)
Theorem batched_draw_reproducible gens rqs w1 w2 :
  agree_on gens w1 w2 →
  (∀ rq, (run_request gens rq w1).1 = (run_request gens rq w2).1) ∧
  (run_requests gens rqs w1).1 = (run_requests gens rqs w2).1 ∧
  agree_on gens (run_requests gens rqs w1).2 (run_requests gens rqs w2).2.
Proof.
  intros Hag. split.
  { intros rq. by apply run_request_agree. }
  revert w1 w2 Hag. induction rqs as [|rq rqs IH]; intros w1 w2 Hag; [done|].
  destruct (run_request_agree gens rq w1 w2 Hag) as [Hout Hag'].
  destruct (IH _ _ Hag') as [Houts Hfin].
  cbn [run_requests fst snd]. split; [|done]. by rewrite Hout, Houts.
Qed.

(** C2, as amended.  For a floating-point dtype and a batch size
    [n >= 1] that is a multiple of the number [G] of generators, all of
    them on one device, the call cycles the list [n / G] times, so that
    sample [i] is assigned generator [i mod G]; it draws one slice of
    shape [1 :: trailing] per assigned generator, in index order, and
    returns their concatenation: a tensor of the requested shape on the
    requested device whose [i]-th slice is the slice drawn for sample
    [i]. *)
Theorem batched_cycles_streams normal n tr gens dev dt dev0 w :
  is_floating_point dt = true →
  gens ≠ [] → 0 < n → n mod length gens = 0 → all_on dev0 gens w →
  let d := kind_of normal in
  let cyc := list_mul gens (n / length gens) in
  let r := batched_draw normal (n :: tr) gens dev dt w in
  length cyc = n ∧
  (∀ i, i < n → cyc !! i = gens !! (i mod length gens)) ∧
  history r.2 = history w ++ ((λ g, DrawEvent (Some g) d (1 :: tr)) <$> cyc) ∧
  ∃ t, r.1 = Return t ∧
       t_shape t = n :: tr ∧ t_device t = dev ∧ t_dtype t = dt ∧
       length (t_data t) = n * numel tr ∧
       ∀ i g, cyc !! i = Some g →
         slice_of (numel (1 :: tr)) t i
         = t_data (expected_slice d dt (1 :: tr) w cyc i g).
Proof.
  intros Hf Hne Hpos Hmod Hdev d cyc r. subst r.
  rewrite batched_draw_float by done. fold d.
  destruct (batched_returns d n tr gens dev dt dev0 w Hne Hpos Hmod Hdev)
    as [Hlen Hret].
  fold cyc in Hlen, Hret.
  split_and!.
  - done.
  - intros i Hi. apply lookup_list_mul.
    rewrite <-length_list_mul. fold cyc. lia.
  - by destruct (batched_run d n tr gens dev dt w Hne Hmod)
      as (w' & -> & _ & _ & Hhist & _).
  - eexists. split; [exact Hret|]. split_and!; try done.
    + cbn [t_data]. rewrite length_concat.
      rewrite (sum_list_fmap_same (numel tr)).
      * rewrite length_imap, Hlen. lia.
      * apply Forall_forall. intros l Hl.
        apply list_elem_of_In, list_elem_of_lookup in Hl as [j Hj].
        rewrite list_lookup_imap in Hj.
        destruct (cyc !! j) as [g'|]; [|done]. injection Hj as <-.
        unfold expected_slice. cbn [t_data]. rewrite sample_length.
        simpl. lia.
    + intros i g Hi.
      by apply (slice_of_batched d n tr gens dev dt w).
Qed.

(** C3.  With at least one generator on the list, the call raises the
    invalid-batch-size [ValueError] exactly when the batch size is not a
    multiple of the number of generators, and a call that raises it
    leaves every generator (the whole world) as it was. *)
Theorem invalid_batch_size_iff normal n tr gens dev dt w :
  gens ≠ [] →
  let r := batched_draw normal (n :: tr) gens dev dt w in
  (r.1 = Raise (invalid_batch_size n (length gens))
     ↔ n mod length gens ≠ 0) ∧
  ((∃ msg, r.1 = Raise (ValueError msg)) ↔ n mod length gens ≠ 0) ∧
  (n mod length gens ≠ 0 → r.2 = w).
Proof.
  intros Hne r. subst r. rewrite batched_draw_eq.
  destruct (decide (n mod length gens = 0)) as [Hmod|Hmod];
    [destruct (is_floating_point dt) eqn:Hf|].
  - rewrite batched_float by done.
    destruct (batched_run (kind_of normal) n tr gens dev dt w Hne Hmod)
      as (w' & -> & _).
    cbn [fst snd].
    assert (Hno : ∀ msg, finish (Some dev)
              (torch_cat (imap (expected_slice (kind_of normal) dt (1 :: tr) w
                 (list_mul gens (n / length gens)))
                 (list_mul gens (n / length gens))) w').1
              ≠ Raise (ValueError msg)).
    { intros msg.
      pose proof (torch_cat_not_value_error
        (imap (expected_slice (kind_of normal) dt (1 :: tr) w
           (list_mul gens (n / length gens)))
           (list_mul gens (n / length gens))) w' msg) as Hc.
      destruct (torch_cat _ w').1 as [t|e]; [done|]. simpl. done. }
    split_and!.
    + split; [|done]. intros H. by apply Hno in H.
    + split; [|done]. intros [msg H]. by apply Hno in H.
    + done.
  - destruct (batched_refused (kind_of normal) (n :: tr) gens dev dt Hf)
      as (e & -> & Hrt).
    destruct (Hrt n tr eq_refl Hne Hmod) as [msg' ->]. cbn [fst snd].
    split_and!; [by split|split; [by intros [? ?]|done]|done].
  - rewrite batched_mismatch by done. cbn [fst snd]. split_and!.
    + done.
    + split; [done|]. intros _. by eexists.
    + done.
Qed.

(** C5, as amended.  A call for a floating-point dtype whose batch size
    [n] is a multiple of the number [G] of generators draws from each
    generator once per sample assigned to it: [n / G] times for a
    generator listed once (once only when [n = G]), and leaves generators
    outside the list alone.  The slice of sample [i] depends on the
    generator assigned to it only: worlds that agree on that one
    generator give the same slice. *)
Theorem stream_advances_once_per_sample normal n tr gens dev dt w :
  is_floating_point dt = true →
  gens ≠ [] → n mod length gens = 0 →
  let d := kind_of normal in
  let cyc := list_mul gens (n / length gens) in
  let w' := (batched_draw normal (n :: tr) gens dev dt w).2 in
  (∀ g, draws_on g (history w')
        = draws_on g (history w) + n / length gens * occurrences g gens) ∧
  (∀ g, heap w' g
        = Generator (Nat.iter (n / length gens * occurrences g gens)
                       (advance d dt (1 :: tr)) (g_state (heap w g)))
                    (g_device (heap w g))) ∧
  (∀ g, g ∉ gens → heap w' g = heap w g) ∧
  (NoDup gens → ∀ g, g ∈ gens →
     draws_on g (history w') = draws_on g (history w) + n / length gens) ∧
  (∀ w2 i g t1 t2,
     cyc !! i = Some g → heap w g = heap w2 g →
     (batched_draw normal (n :: tr) gens dev dt w).1 = Return t1 →
     (batched_draw normal (n :: tr) gens dev dt w2).1 = Return t2 →
     slice_of (numel (1 :: tr)) t1 i = slice_of (numel (1 :: tr)) t2 i).
Proof.
  intros Hf Hne Hmod d cyc w'. subst w'.
  rewrite !batched_draw_float by done. fold d.
  destruct (batched_run d n tr gens dev dt w Hne Hmod)
    as (w' & Hrun & Hheap & _ & Hhist & _).
  rewrite Hrun. cbn [snd]. fold cyc in Hheap, Hhist.
  assert (Hocc : ∀ g, occurrences g cyc = n / length gens * occurrences g gens).
  { intros g. apply occurrences_list_mul. }
  assert (Hdraws : ∀ g, draws_on g (history w')
            = draws_on g (history w) + n / length gens * occurrences g gens).
  { intros g. by rewrite Hhist, draws_on_app, draws_on_events, Hocc. }
  split_and!.
  - done.
  - intros g. by rewrite Hheap, Hocc.
  - intros g Hg. rewrite Hheap, Hocc, occurrences_not_in by done.
    rewrite Nat.mul_0_r. simpl. by destruct (heap w g).
  - intros Hnd g Hg. rewrite Hdraws. f_equal.
    assert (occurrences g gens = 1) as ->; [|lia].
    clear -Hnd Hg. induction Hnd as [|x l Hx Hnd IH].
    + by apply elem_of_nil in Hg.
    + rewrite occurrences_cons. apply elem_of_cons in Hg as [->|Hg].
      * rewrite decide_True by done. by rewrite occurrences_not_in.
      * rewrite decide_False by (intros ->; done). by rewrite IH.
  - intros w2 i g t1 t2 Hi Hsame Hr1 Hr2.
    rewrite <-Hrun in Hr1. rewrite batched_draw_float in Hr2 by done.
    rewrite (slice_of_batched d n tr gens dev dt w t1 i g) by done.
    rewrite (slice_of_batched d n tr gens dev dt w2 t2 i g) by done.
    f_equal. by apply expected_slice_agree.
Qed.

(** C10.  With an empty Stream List neither function raises the
    invalid-batch-size error: the modulo of the check divides by the
    number of generators and raises [ZeroDivisionError], before any
    draw.  The check yields a verdict exactly when the list has at least
    one generator. *)
Theorem empty_stream_list_divides_by_zero normal n tr gens dev dt w :
  batched_draw normal (n :: tr) [] dev dt w = (Raise ZeroDivisionError, w) ∧
  Raise ZeroDivisionError ≠ Raise (A:=tensor) (invalid_batch_size n 0) ∧
  ((∃ verdict, batch_mismatch (n :: tr) gens w = (Return verdict, w))
     ↔ (1 ≤ length gens)%nat) ∧
  (batch_mismatch (n :: tr) gens w = (Raise ZeroDivisionError, w)
     ↔ length gens = 0).
Proof.
  split_and!.
  - by destruct normal.
  - done.
  - unfold batch_mismatch. destruct (decide (length gens = 0)) as [H0|H0].
    + split; [by intros [? ?]|lia].
    + split; [lia|]. intros _. by eexists.
  - unfold batch_mismatch. destruct (decide (length gens = 0)) as [H0|H0];
      by split.
Qed.

End Partitioner.

(** ** The override namespace: [TorchRandOverride] *)

Section Override.
Context `{TB : TorchBackend}.

Lemma randint_like_run self input args high low dt dev n tr lo hi w :
  t_shape input = n :: tr → generators self ≠ [] →
  n mod length (generators self) = 0 →
  randint_bounds args high low = (lo, Some hi) →
  randint_check lo hi (default Int64 dt) = None →
  let gens := generators self in
  ∃ w',
    randint_like self input args high low dt dev w
    = (finish dev
         (torch_cat (imap (expected_slice (RandInt lo hi) (default Int64 dt)
                             (1 :: tr) w gens) gens) w').1, w') ∧
    (∀ g, heap w' g =
          Generator (Nat.iter (occurrences g gens)
                       (advance (RandInt lo hi) (default Int64 dt) (1 :: tr))
                       (g_state (heap w g)))
                    (g_device (heap w g))) ∧
    defaults w' = defaults w ∧
    history w' = history w ++
                 ((λ g, DrawEvent (Some g) (RandInt lo hi) (1 :: tr)) <$> gens) ∧
    stdout w' = stdout w.
Proof.
  intros Hshape Hne Hmod Hbounds Hok gens.
  destruct (comprehension_draws (RandInt lo hi) (default Int64 dt) (1 :: tr) gens w)
    as (w' & Hrun & Hheap & Hdef & Hhist & Hout).
  exists w'. split; [|done].
  unfold randint_like. rewrite Hbounds.
  unfold bind at 1. rewrite Hshape, batch_mismatch_cons by done.
  rewrite bool_decide_eq_false_2 by (by intros []).
  unfold bind at 1. cbn [tail]. fold gens.
  rewrite (comprehension_ext _
    (λ g w, seeded_draw (RandInt lo hi) (1 :: tr) g (g_device (heap w g))
              (default Int64 dt) w)).
  - rewrite Hrun. apply cat_then_to.
  - intros x s. unfold torch_randint. by rewrite Hok.
Qed.

Lemma torch_randint_refused size lo hi g dev dt e w :
  refused_bounds "randint" lo hi (default Int64 dt) = Some e →
  torch_randint size lo hi g dev dt w = (Raise e, w).
Proof.
  unfold refused_bounds, torch_randint. destruct hi as [hi|].
  - by intros ->.
  - by intros [= <-].
Qed.

Lemma torch_randint_like_refused input lo hi dt dev e w :
  refused_bounds "randint_like" lo hi (default (t_dtype input) dt) = Some e →
  torch_randint_like input lo hi dt dev w = (Raise e, w).
Proof.
  unfold refused_bounds, torch_randint_like. destruct hi as [hi|].
  - by intros ->.
  - by intros [= <-].
Qed.

(** C4, as amended.  When the batch size of the input is a multiple of
    the number of generators and torch accepts the bounds ([high] given,
    and the range from [low] to [high] passes torch's check for the
    dtype, so [low < high]), [randint_like] issues exactly one
    single-sample draw per generator, in list order: as many draws as
    there are generators, whatever the batch size, each generator being
    advanced once for each time it is listed; where [batched_rand] and
    [batched_randn] issue as many draws as there are samples. *)
Theorem randint_like_draws_once_per_stream
    self input args high low dt dev n tr lo hi w normal dev' dt' :
  t_shape input = n :: tr → generators self ≠ [] →
  n mod length (generators self) = 0 →
  randint_bounds args high low = (lo, Some hi) →
  randint_check lo hi (default Int64 dt) = None →
  is_floating_point dt' = true →
  let gens := generators self in
  let d := RandInt lo hi in
  let w' := (randint_like self input args high low dt dev w).2 in
  (lo < hi)%Z ∧
  history w' = history w ++ ((λ g, DrawEvent (Some g) d (1 :: tr)) <$> gens) ∧
  length (history w') = length (history w) + length gens ∧
  (∀ g, draws_on g (history w') = draws_on g (history w) + occurrences g gens) ∧
  (∀ g, heap w' g
        = Generator (Nat.iter (occurrences g gens)
                       (advance d (default Int64 dt) (1 :: tr))
                       (g_state (heap w g)))
                    (g_device (heap w g))) ∧
  (NoDup gens → ∀ g, g ∈ gens →
     g_state (heap w' g)
     = advance d (default Int64 dt) (1 :: tr) (g_state (heap w g))) ∧
  (∀ g, g ∉ gens → heap w' g = heap w g) ∧
  defaults w' = defaults w ∧
  length (history (batched_draw normal (n :: tr) gens dev' dt' w).2)
  = length (history w) + n.
Proof.
  intros Hshape Hne Hmod Hbounds Hok Hf gens d w'. subst w'.
  destruct (randint_like_run self input args high low dt dev n tr lo hi w
              Hshape Hne Hmod Hbounds Hok) as (w' & -> & Hheap & Hdef & Hhist & _).
  fold gens d in Hhist, Hheap. cbn [snd]. split_and!.
  - destruct (decide (lo < hi)%Z) as [|Hge]; [done|].
    destruct (randint_check_empty lo hi (default Int64 dt)) as [msg Hmsg]; [lia|].
    by rewrite Hmsg in Hok.
  - done.
  - by rewrite Hhist, length_app, length_fmap.
  - intros g. by rewrite Hhist, draws_on_app, draws_on_events.
  - done.
  - intros Hnd g Hg. rewrite Hheap. cbn [g_state].
    by rewrite occurrences_NoDup.
  - intros g Hg. rewrite Hheap, occurrences_not_in by done. simpl.
    by destruct (heap w g).
  - done.
  - rewrite batched_draw_float by done.
    destruct (batched_run (kind_of normal) n tr gens dev' dt' w Hne Hmod)
      as (w2 & -> & _ & _ & Hhist2 & _).
    cbn [snd]. rewrite Hhist2, length_app, length_fmap, length_list_mul.
    f_equal.
    pose proof (Nat.Div0.div_exact n (length gens)) as [_ Hex].
    rewrite (Hex Hmod) at 2. lia.
Qed.

(** C6, as amended.  For an input with a batch dimension, a non-empty
    Stream List and a floating-point dtype (the one given, else the
    input's): when the batch size [n >= 1] is a multiple of the number of
    generators, all on one device, [randn_like] returns the batched
    normal draw with the input's shape and the input's device and dtype
    unless given explicitly: sample [i] is the slice drawn from generator
    [i mod G], every generator is advanced once per sample assigned to
    it, and no default generator is used; when the batch size is not a
    multiple, it returns the ordinary unseeded normal draw (same shape,
    device and dtype rule), raises nothing, and neither reads nor
    advances any generator of the list: only the default generator of the
    target device is used. *)
Theorem randn_like_batched_or_unseeded self input dt dev n tr dev0 w :
  t_shape input = n :: tr → generators self ≠ [] →
  is_floating_point (default (t_dtype input) dt) = true →
  let gens := generators self in
  let dev' := default (t_device input) dev in
  let dt' := default (t_dtype input) dt in
  let cyc := list_mul gens (n / length gens) in
  let r := randn_like self input dt dev w in
  (n mod length gens = 0 → 0 < n → all_on dev0 gens w →
     (∃ t, r.1 = Return t ∧
           t_shape t = t_shape input ∧ t_device t = dev' ∧ t_dtype t = dt' ∧
           ∀ i g, cyc !! i = Some g →
             slice_of (numel (1 :: tr)) t i
             = t_data (expected_slice Normal dt' (1 :: tr) w cyc i g)) ∧
     (∀ i, i < n → cyc !! i = gens !! (i mod length gens)) ∧
     (∀ g, heap r.2 g
           = Generator (Nat.iter (n / length gens * occurrences g gens)
                          (advance Normal dt' (1 :: tr)) (g_state (heap w g)))
                       (g_device (heap w g))) ∧
     defaults r.2 = defaults w ∧
     history r.2
     = history w ++ ((λ g, DrawEvent (Some g) Normal (1 :: tr)) <$> cyc)) ∧
  (n mod length gens ≠ 0 →
     r.1 = Return (Tensor (t_shape input)
                     (sample Normal dt' (t_shape input) (defaults w dev')).1
                     dev' dt') ∧
     heap r.2 = heap w ∧
     history r.2 = history w ++ [DrawEvent None Normal (t_shape input)] ∧
     ∀ w2, defaults w2 = defaults w →
           (randn_like self input dt dev w2).1 = r.1).
Proof.
  intros Hshape Hne Hf gens dev' dt' cyc r. subst r.
  assert (Hcheck : ∀ w0, batch_mismatch (t_shape input) (generators self) w0
            = (Return (bool_decide (n mod length gens ≠ 0)), w0)).
  { intros w0. rewrite Hshape. by apply batch_mismatch_cons. }
  unfold randn_like, bind. rewrite Hcheck. split.
  - intros Hmod Hpos Hdev. rewrite bool_decide_eq_false_2 by (by intros []).
    fold gens dev' dt'. rewrite Hshape.
    change batched_randn with (batched_draw true).
    rewrite batched_draw_float by done. cbn [kind_of].
    destruct (batched_returns Normal n tr gens dev' dt' dev0 w Hne Hpos Hmod Hdev)
      as [Hlen Hret]. fold cyc in Hlen, Hret.
    destruct (batched_run Normal n tr gens dev' dt' w Hne Hmod)
      as (w' & Hrun & Hheap & Hdef & Hhist & _).
    fold cyc in Hheap, Hhist. split_and!.
    + eexists. split; [exact Hret|]. split_and!; try done.
      intros i g Hi.
      by apply (slice_of_batched Normal n tr gens dev' dt' w).
    + intros i Hi. apply lookup_list_mul.
      rewrite <-length_list_mul. fold cyc. lia.
    + intros g. rewrite Hrun. cbn [snd]. rewrite Hheap. unfold cyc.
      by rewrite occurrences_list_mul.
    + by rewrite Hrun.
    + by rewrite Hrun.
  - intros Hmod. rewrite bool_decide_eq_true_2 by done.
    subst dt' dev'. unfold torch_randn_like. cbv zeta. rewrite Hf.
    split_and!; try done.
    intros w2 Hdef. rewrite Hcheck, bool_decide_eq_true_2 by done.
    unfold unseeded_draw. cbn [fst].
    by rewrite Hdef.
Qed.

End Override.

(** ** Call-site keys *)








(** ** The non-determinism tracker *)

Section TrackerFacts.
Context `{TB : TorchBackend}.
Variable sink_accepts : list string → string → bool.
Context {value result : Type}.
Implicit Types (wrapped : entry_point (value:=value) (result:=result)).
Implicit Types (caller : frame_info) (p : process).

Lemma tracker_with_generator wrapped caller args kwargs p :
  kwargs !! "generator" ≠ None →
  tracker sink_accepts wrapped caller args kwargs p
  = in_torch (wrapped args kwargs) p.
Proof. intros Hgen. unfold tracker, bind. by rewrite decide_False. Qed.

Lemma tracker_seen wrapped caller args kwargs p :
  kwargs !! "generator" = None → fullstr caller ∈ warned p →
  tracker sink_accepts wrapped caller args kwargs p
  = in_torch (wrapped args kwargs) p.
Proof.
  intros Hgen Hseen. unfold tracker, bind.
  rewrite decide_True by done. by rewrite decide_True.
Qed.

Lemma tracker_fresh_accepted wrapped caller args kwargs p :
  kwargs !! "generator" = None → fullstr caller ∉ warned p →
  sink_accepts (log p) (warning (fullstr caller)) = true →
  tracker sink_accepts wrapped caller args kwargs p
  = in_torch (wrapped args kwargs)
      (Process (torch_state p) ({[fullstr caller]} ∪ warned p)
               (log p ++ [warning (fullstr caller)])).
Proof.
  intros Hgen Hnew Hsink. unfold tracker. unfold bind at 1.
  rewrite decide_True by done. rewrite decide_False by done.
  unfold bind, logger_warn. by rewrite Hsink.
Qed.

Lemma tracker_fresh_rejected wrapped caller args kwargs p :
  kwargs !! "generator" = None → fullstr caller ∉ warned p →
  sink_accepts (log p) (warning (fullstr caller)) = false →
  tracker sink_accepts wrapped caller args kwargs p = (Raise LoggingError, p).
Proof.
  intros Hgen Hnew Hsink. unfold tracker. unfold bind at 1.
  rewrite decide_True by done. rewrite decide_False by done.
  unfold bind, logger_warn. by rewrite Hsink.
Qed.


Lemma run_calls_cons wrapped c calls p :
  run_calls sink_accepts wrapped (c :: calls) p
  = run_calls sink_accepts wrapped calls
      (tracker sink_accepts wrapped (c_frame c) (c_args c) (c_kwargs c) p).2.
Proof. done. Qed.

(** C7, as amended.  Whenever the logging call made by the wrapper
    returns (no warning is due, or the sink takes it), the wrapper hands
    the caller
    exactly what the wrapped operation yields on the same arguments, a
    returned value or an exception alike, and leaves torch in the state
    the wrapped operation alone would have left it in; with or without a
    [generator] keyword.  (When the sink raises on a warning that is due,
    the call is not forwarded.) *)
Theorem tracker_transparent wrapped caller args kwargs p :
  (kwargs !! "generator" = None → fullstr caller ∉ warned p →
   sink_accepts (log p) (warning (fullstr caller)) = true) →
  let r := tracker sink_accepts wrapped caller args kwargs p in
  let o := wrapped args kwargs (torch_state p) in
  r.1 = o.1 ∧ torch_state r.2 = o.2.
Proof.
  intros Hsink r o. subst r o.
  destruct (decide (kwargs !! "generator" = None)) as [Hgen|Hgen].
  - destruct (decide (fullstr caller ∈ warned p)) as [Hseen|Hnew].
    + by rewrite tracker_seen.
    + by rewrite tracker_fresh_accepted by auto.
  - by rewrite tracker_with_generator.
Qed.



(** C9, as amended.  The wrapper handles no exception: when a warning is
    due and the sink raises, that exception reaches the caller, the
    wrapped operation is not called and the key is not recorded.  Apart
    from that the wrapper raises only what the wrapped operation
    raises. *)
Theorem tracker_propagates_sink_failure wrapped caller args kwargs p :
  (kwargs !! "generator" = None → fullstr caller ∉ warned p →
   sink_accepts (log p) (warning (fullstr caller)) = false →
   tracker sink_accepts wrapped caller args kwargs p
   = (Raise LoggingError, p)) ∧
  (∀ e, (tracker sink_accepts wrapped caller args kwargs p).1 = Raise e →
     (e = LoggingError ∧ kwargs !! "generator" = None ∧
      (fullstr caller ∉ warned p) ∧
      sink_accepts (log p) (warning (fullstr caller)) = false) ∨
     (wrapped args kwargs (torch_state p)).1 = Raise e).
Proof.
  split; [by apply tracker_fresh_rejected|].
  intros e.
  destruct (decide (kwargs !! "generator" = None)) as [Hgen|Hgen].
  - destruct (decide (fullstr caller ∈ warned p)) as [Hseen|Hnew].
    + rewrite tracker_seen by done. auto.
    + destruct (sink_accepts (log p) (warning (fullstr caller))) eqn:Hsink.
      * rewrite tracker_fresh_accepted by done. auto.
      * rewrite tracker_fresh_rejected by done. intros [= <-]. auto.
  - rewrite tracker_with_generator by done. auto.
Qed.

End TrackerFacts.

(** ** The statements at concrete inputs *)

Module Examples.
Import Counter.

Lemma agree_w0_w_other : agree_on [0; 1] w0 w_other.
Proof.
  intros r Hr.
  apply elem_of_cons in Hr as [->|Hr]; [reflexivity|].
  apply elem_of_cons in Hr as [->|Hr]; [reflexivity|].
  by apply elem_of_nil in Hr.
Defined.

Lemma all_on_cpu_w0 gens : all_on CPU gens w0.
Proof. intros r _. reflexivity. Defined.

Lemma batched_draw_reproducible_witness :
  agree_on [0; 1] w0 w_other ∧
  (run_requests [0; 1]
     [Request false [4; 2] CPU Float32; Request true [2; 3] (CUDA 0) Float16] w0).1
  = (run_requests [0; 1]
     [Request false [4; 2] CPU Float32; Request true [2; 3] (CUDA 0) Float16]
     w_other).1.
Proof.
  split; [exact agree_w0_w_other|].
  exact (proj1 (proj2 (batched_draw_reproducible [0; 1] _ w0 w_other
                         agree_w0_w_other))).
Defined.

(** Two calls in a row differ, the replay does not. *)
Example reproducibility_run :
  (run_requests [0; 1]
     [Request false [2; 1] CPU Float32; Request false [2; 1] CPU Float32] w0).1
  = [Return (Tensor [2; 1] [0; 100] CPU Float32);
     Return (Tensor [2; 1] [1; 101] CPU Float32)].
Proof. reflexivity. Qed.

(** C2 fails as stated: a batch size of 0 is a multiple of the number of
    generators, and so is 2 of 2 generators on different devices, yet
    neither call returns a tensor: [torch.cat] raises.  Nor does a call
    for an integer dtype: [torch.rand] raises at the first sample, and
    nothing is drawn. *)
Lemma batched_cycles_streams_counterexample :
  0 mod length [0; 1] = 0 ∧
  (batched_rand [0; 2] [0; 1] CPU Float32 w0).1
  = Raise (RuntimeError "torch.cat(): expected a non-empty list of Tensors") ∧
  2 mod length [0; 1] = 0 ∧
  (batched_randn [2; 2] [0; 1] CPU Float32 w_mixed).1
  = Raise (RuntimeError "torch.cat(): tensors cannot be concatenated") ∧
  batched_rand [2; 2] [0; 1] CPU Int64 w0
  = (Raise (RuntimeError "not implemented for 'Long'"), w0).
Proof. by vm_compute. Qed.

Lemma batched_cycles_streams_witness :
  (is_floating_point Float32 = true ∧
   [0; 1] ≠ [] ∧ 0 < 4 ∧ 4 mod length [0; 1] = 0 ∧ all_on CPU [0; 1] w0) ∧
  ∃ t, (batched_draw true [4; 2] [0; 1] (CUDA 0) Float32 w0).1 = Return t ∧
       t_shape t = [4; 2] ∧ t_device t = CUDA 0 ∧ t_dtype t = Float32 ∧
       length (t_data t) = 4 * numel [2] ∧
       ∀ i g, list_mul [0; 1] (4 / length [0; 1]) !! i = Some g →
         slice_of (numel [1; 2]) t i
         = t_data (expected_slice (kind_of true) Float32 [1; 2] w0
                     (list_mul [0; 1] (4 / length [0; 1])) i g).
Proof.
  assert (H1 : [0; 1] ≠ @nil nat) by discriminate.
  assert (H2 : 0 < 4) by lia.
  assert (H3 : 4 mod length [0; 1] = 0) by reflexivity.
  split; [by repeat split; try apply all_on_cpu_w0|].
  exact (proj2 (proj2 (proj2
    (batched_cycles_streams true 4 [2] [0; 1] (CUDA 0) Float32 CPU w0
       eq_refl H1 H2 H3 (all_on_cpu_w0 _))))).
Defined.

Example cycling_run :
  batched_rand [4; 2] [0; 1] CPU Float32 w0
  = (Return (Tensor [4; 2] [0; 0; 100; 100; 1; 1; 101; 101] CPU Float32),
     (batched_rand [4; 2] [0; 1] CPU Float32 w0).2) ∧
  (ev_gen <$> history (batched_rand [4; 2] [0; 1] CPU Float32 w0).2)
  = [Some 0; Some 1; Some 0; Some 1].
Proof. split; reflexivity. Qed.

Lemma invalid_batch_size_iff_witness :
  [0; 1; 2] ≠ [] ∧
  (batched_draw false [5; 2] [0; 1; 2] CPU Float32 w0).1
  = Raise (invalid_batch_size 5 (length [0; 1; 2])) ∧
  (batched_draw false [5; 2] [0; 1; 2] CPU Float32 w0).2 = w0.
Proof.
  assert (H1 : [0; 1; 2] ≠ @nil nat) by discriminate.
  assert (H2 : 5 mod length [0; 1; 2] ≠ 0) by discriminate.
  pose proof (invalid_batch_size_iff false 5 [2] [0; 1; 2] CPU Float32 w0 H1)
    as (Hiff & _ & Hsame).
  split; [exact H1|]. split; [exact (proj2 Hiff H2)|exact (Hsame H2)].
Defined.

(** The two cases the specification names: 5 of 3 fails, 6 of 3 passes. *)
Example divisibility_run :
  (batched_rand [5; 2] [0; 1; 2] CPU Float32 w0).1
  = Raise (ValueError "shape[0] (5) needs to be a multiple of len(generators) (3)") ∧
  (batched_rand [6; 1] [0; 1; 2] CPU Float32 w0).1
  = Return (Tensor [6; 1] [0; 100; 200; 1; 101; 201] CPU Float32).
Proof. split; reflexivity. Qed.

(** C5 fails as stated: one call with batch size 2 on a single generator
    draws from it twice and leaves it two draws further, where one draw
    would leave it at 1. *)
Lemma stream_advances_once_counterexample :
  2 mod length [0] = 0 ∧
  draws_on 0 (history (batched_rand [2; 1] [0] CPU Float32 w0).2) = 2 ∧
  g_state (heap (batched_rand [2; 1] [0] CPU Float32 w0).2 0) = 2 ∧
  advance Uniform Float32 [1; 1] (g_state (heap w0 0)) = 1.
Proof. by vm_compute. Qed.

Lemma stream_advances_once_per_sample_witness :
  (is_floating_point Float32 = true ∧
   [0; 1; 2] ≠ [] ∧ 6 mod length [0; 1; 2] = 0) ∧
  ∀ g, draws_on g (history (batched_draw false [6; 1] [0; 1; 2] CPU Float32 w0).2)
       = draws_on g (history w0) + 6 / length [0; 1; 2] * occurrences g [0; 1; 2].
Proof.
  assert (H1 : [0; 1; 2] ≠ @nil nat) by discriminate.
  assert (H2 : 6 mod length [0; 1; 2] = 0) by reflexivity.
  split; [by split|].
  exact (proj1 (stream_advances_once_per_sample false 6 [1] [0; 1; 2]
                  CPU Float32 w0 eq_refl H1 H2)).
Defined.

Lemma randint_like_draws_once_per_stream_witness :
  (t_shape (Tensor [4; 2] [] CPU Float32) = [4; 2] ∧ [0; 1] ≠ [] ∧
   4 mod length [0; 1] = 0 ∧
   randint_bounds [7%Z] None None = (0%Z, Some 7%Z) ∧
   randint_check 0 7 Int64 = None) ∧
  length (history (randint_like {| generators := [0; 1] |}
            (Tensor [4; 2] [] CPU Float32) [7%Z] None None None None w0).2)
  = length (history w0) + length [0; 1] ∧
  ∀ g, heap (randint_like {| generators := [0; 1] |}
               (Tensor [4; 2] [] CPU Float32) [7%Z] None None None None w0).2 g
       = Generator (Nat.iter (occurrences g [0; 1])
                      (advance (RandInt 0 7) Int64 [1; 2]) (g_state (heap w0 g)))
                   (g_device (heap w0 g)).
Proof.
  assert (H1 : t_shape (Tensor [4; 2] [] CPU Float32) = [4; 2]) by reflexivity.
  assert (H2 : generators {| generators := [0; 1] |} ≠ []) by discriminate.
  assert (H3 : 4 mod length (generators {| generators := [0; 1] |}) = 0)
    by reflexivity.
  split; [by repeat split|].
  pose proof (randint_like_draws_once_per_stream
    {| generators := [0; 1] |} (Tensor [4; 2] [] CPU Float32) [7%Z] None None
    None None 4 [2] 0%Z 7%Z w0 false CPU Float32 H1 H2 H3 eq_refl eq_refl eq_refl)
    as (_ & _ & Hlen & _ & Hheap & _).
  split; [exact Hlen|exact Hheap].
Defined.

(** A batch of 4 over 2 generators: two draws, and two rows. *)
Example randint_like_two_rows :
  (randint_like {| generators := [0; 1] |} (Tensor [4; 2] [] CPU Float32)
     [7%Z] None None None None w0).1
  = Return (Tensor [2; 2] [0; 0; 100; 100] CPU Int64) ∧
  history (randint_like {| generators := [0; 1] |} (Tensor [4; 2] [] CPU Float32)
     [7%Z] None None None None w0).2
  = [DrawEvent (Some 0) (RandInt 0 7) [1; 2];
     DrawEvent (Some 1) (RandInt 0 7) [1; 2]].
Proof. split; reflexivity. Qed.

(** C4 fails as stated: for an input whose batch size is a multiple of
    the number of generators, a call without [high], or with an empty
    range, makes no draw at all: [torch.randint] raises at the first
    generator, and the call leaves everything as it was. *)
Lemma randint_like_draws_counterexample :
  4 mod length [0; 1] = 0 ∧
  randint_like {| generators := [0; 1] |} (Tensor [4; 2] [] CPU Float32)
    [] None None None None w0
  = (Raise (TypeError "randint() received an invalid combination of arguments"),
     w0) ∧
  randint_like {| generators := [0; 1] |} (Tensor [4; 2] [] CPU Float32)
    [5%Z; 5%Z] None None None None w0
  = (Raise (RuntimeError "random_ expects 'from' to be less than 'to'"), w0) ∧
  length (history w0) + length [0; 1] ≠ length (history w0).
Proof. by vm_compute. Qed.

Lemma randn_like_batched_or_unseeded_witness :
  (t_shape (Tensor [4; 2] [] CPU Float32) = [4; 2] ∧ [0; 1] ≠ [] ∧
   is_floating_point Float32 = true ∧
   4 mod length [0; 1] = 0 ∧ 0 < 4 ∧ all_on CPU [0; 1] w0) ∧
  ∀ g, heap (randn_like {| generators := [0; 1] |}
               (Tensor [4; 2] [] CPU Float32) None (Some (CUDA 1)) w0).2 g
       = Generator (Nat.iter (4 / length [0; 1] * occurrences g [0; 1])
                      (advance Normal Float32 [1; 2]) (g_state (heap w0 g)))
                   (g_device (heap w0 g)).
Proof.
  assert (H1 : t_shape (Tensor [4; 2] [] CPU Float32) = [4; 2]) by reflexivity.
  assert (H2 : generators {| generators := [0; 1] |} ≠ []) by discriminate.
  assert (H3 : 4 mod length (generators {| generators := [0; 1] |}) = 0)
    by reflexivity.
  assert (H4 : 0 < 4) by lia.
  split; [by repeat split; try apply all_on_cpu_w0|].
  exact (proj1 (proj2 (proj2 (proj1 (randn_like_batched_or_unseeded
    {| generators := [0; 1] |} (Tensor [4; 2] [] CPU Float32)
    None (Some (CUDA 1)) 4 [2] CPU w0 H1 H2 eq_refl) H3 H4
    (all_on_cpu_w0 _))))).
Defined.

(** Both paths of [randn_like]: four samples over two generators, and
    three samples, which the two generators do not divide. *)
Example randn_like_run :
  (randn_like {| generators := [0; 1] |} (Tensor [4; 1] [] CPU Float32)
     None (Some (CUDA 1)) w0).1
  = Return (Tensor [4; 1] [0; 100; 1; 101] (CUDA 1) Float32) ∧
  (randn_like {| generators := [0; 1] |} (Tensor [3; 2] [] CPU Float32)
     None (Some (CUDA 1)) w0).1
  = Return (Tensor [3; 2] (replicate 6 0) (CUDA 1) Float32).
Proof. split; reflexivity. Qed.

(** C6 fails as stated: an input of batch size 0 takes the batched path
    and raises in [torch.cat]; so does one whose generators live on
    different devices; and an integer input whose batch size is not a
    multiple of the number of generators raises in [torch.randn_like]
    instead of returning an unseeded draw. *)
Lemma randn_like_returns_counterexample :
  0 mod length [0; 1] = 0 ∧
  randn_like {| generators := [0; 1] |} (Tensor [0; 2] [] CPU Float32)
    None None w0
  = (Raise (RuntimeError "torch.cat(): expected a non-empty list of Tensors"),
     w0) ∧
  (randn_like {| generators := [0; 1] |} (Tensor [2; 2] [] CPU Float32)
     None None w_mixed).1
  = Raise (RuntimeError "torch.cat(): tensors cannot be concatenated") ∧
  3 mod length [0; 1] ≠ 0 ∧
  randn_like {| generators := [0; 1] |} (Tensor [3; 2] [] CPU Int64)
    None None w0
  = (Raise (RuntimeError "not implemented for 'Long'"), w0).
Proof. by vm_compute. Qed.

Lemma tracker_transparent_witness :
  (tracker accept_all plain_rand sampler_line_10 [] ∅ p0).1
  = (plain_rand [] ∅ (torch_state p0)).1 ∧
  torch_state (tracker accept_all plain_rand sampler_line_10 [] ∅ p0).2
  = (plain_rand [] ∅ (torch_state p0)).2.
Proof.
  exact (tracker_transparent accept_all plain_rand sampler_line_10 [] ∅ p0
           (λ _ _, eq_refl)).
Defined.


(** Twice from line 10 and once from line 20: two warnings. *)
Example tracker_run :
  log (run_calls accept_all plain_rand three_calls p0)
  = ["Non-deterministic rand called at sampler.py:10:step";
     "Non-deterministic rand called at sampler.py:20:step"].
Proof. by vm_compute. Qed.

(** C7 fails as stated: from a call site not warned about before, with
    a sink that raises on the warning, the wrapper does not return what
    [torch.rand] returns: it raises, and [torch.rand] is not called (the
    default generator is where it was). *)
Lemma tracker_transparent_counterexample :
  (∅ : gmap string nat) !! "generator" = None ∧
  (plain_rand [] ∅ (torch_state p0)).1
  = Return (Tensor [2] [0; 0] CPU Float32) ∧
  (tracker reject_all plain_rand sampler_line_10 [] ∅ p0).1
  = Raise LoggingError ∧
  defaults (torch_state (tracker reject_all plain_rand sampler_line_10 [] ∅ p0).2)
           CPU
  = defaults (torch_state p0) CPU ∧
  defaults (plain_rand [] ∅ (torch_state p0)).2 CPU
  ≠ defaults (torch_state p0) CPU.
Proof. by vm_compute. Qed.

(** C9 fails as stated: with a sink that raises, the wrapper raises, and
    [torch.rand] is never called (no draw is recorded), although the
    call itself would have returned. *)
Lemma tracker_never_raises_counterexample :
  (tracker reject_all plain_rand sampler_line_10 [] ∅ p0).1
  = Raise LoggingError ∧
  history (torch_state (tracker reject_all plain_rand sampler_line_10 [] ∅ p0).2)
  = [] ∧
  (plain_rand [] ∅ (torch_state p0)).1
  = Return (Tensor [2] [0; 0] CPU Float32).
Proof. by vm_compute. Qed.

Lemma tracker_propagates_sink_failure_witness :
  tracker reject_all plain_rand sampler_line_10 [] ∅ p0
  = (Raise LoggingError, p0).
Proof.
  refine (proj1 (tracker_propagates_sink_failure reject_all plain_rand
                   sampler_line_10 [] ∅ p0) eq_refl _ eq_refl).
  by vm_compute.
Defined.

End Examples.

(** ** More on the override namespace *)

Section OverrideMore.
Context `{TB : TorchBackend}.

(** X1.  On its batched path, with bounds that torch accepts and the
    generators on one device, [randint_like] returns one row per
    generator: a tensor of shape [G :: trailing] whatever the batch size
    [n] of the input, so the result has the shape of the input only when
    [n = G]; its dtype is the one asked for, int64 by default, and it
    stays on the generators' device unless a device is given. *)
Theorem randint_like_one_row_per_generator
    self input args high low dt dev n tr lo hi dev0 w :
  t_shape input = n :: tr → generators self ≠ [] →
  n mod length (generators self) = 0 →
  randint_bounds args high low = (lo, Some hi) →
  randint_check lo hi (default Int64 dt) = None →
  all_on dev0 (generators self) w →
  ∃ t, (randint_like self input args high low dt dev w).1 = Return t ∧
       t_shape t = length (generators self) :: tr ∧
       t_dtype t = default Int64 dt ∧
       t_device t = default dev0 dev ∧
       length (t_data t) = length (generators self) * numel tr ∧
       (t_shape t = t_shape input ↔ n = length (generators self)).
Proof.
  intros Hshape Hne Hmod Hbounds Hok Hdev.
  destruct (randint_like_run self input args high low dt dev n tr lo hi w
              Hshape Hne Hmod Hbounds Hok) as (w' & -> & _).
  cbn [fst]. rewrite (torch_cat_slices _ _ tr w _ dev0 w') by done.
  cbn [fst finish]. eexists. split; [done|].
  cbn [tensor_to t_shape t_dtype t_device t_data]. split_and!; try done.
  - rewrite length_concat. rewrite (sum_list_fmap_same (numel tr)).
    + by rewrite length_imap.
    + apply Forall_forall. intros l Hl.
      apply list_elem_of_In, list_elem_of_lookup in Hl as [j Hj].
      rewrite list_lookup_imap in Hj.
      destruct (generators self !! j) as [g'|]; [|done]. injection Hj as <-.
      unfold expected_slice. cbn [t_data]. rewrite sample_length.
      simpl. lia.
  - rewrite Hshape. split; [by intros [= ->]|by intros ->].
Qed.

(** X2.  When the batch size of the input is not a multiple of the number
    of generators, [randint_like] prints ["Skip"] and calls
    [torch.randint_like]: with bounds that torch accepts for the dtype
    (the one given, else the input's) it returns the unseeded draw (shape
    of the input; dtype and device of the input unless given); with
    bounds that torch refuses it raises, after the print and without
    drawing; either way every generator of the list is left alone. *)
Theorem randint_like_fallback self input args high low dt dev n tr lo hi w :
  t_shape input = n :: tr → generators self ≠ [] →
  n mod length (generators self) ≠ 0 →
  randint_bounds args high low = (lo, hi) →
  let dev' := default (t_device input) dev in
  let dt' := default (t_dtype input) dt in
  let r := randint_like self input args high low dt dev w in
  heap r.2 = heap w ∧
  stdout r.2 = stdout w ++ ["Skip"] ∧
  (∀ h, hi = Some h → randint_check lo h dt' = None →
     r.1 = Return (Tensor (t_shape input)
                     (sample (RandInt lo h) dt' (t_shape input)
                        (defaults w dev')).1
                     dev' dt') ∧
     history r.2 = history w ++ [DrawEvent None (RandInt lo h) (t_shape input)]) ∧
  (∀ e, refused_bounds "randint_like" lo hi dt' = Some e →
     r.1 = Raise e ∧ history r.2 = history w ∧ defaults r.2 = defaults w).
Proof.
  intros Hshape Hne Hmod Hbounds dev' dt' r. subst r.
  unfold randint_like. rewrite Hbounds.
  assert (Hcheck : batch_mismatch (t_shape input) (generators self) w
                   = (Return true, w)).
  { rewrite Hshape, batch_mismatch_cons by done.
    by rewrite bool_decide_eq_true_2. }
  unfold bind. rewrite Hcheck. unfold print.
  set (w1 := World _ _ _ _).
  assert (Hcases :
    (∀ h, hi = Some h → randint_check lo h dt' = None →
       torch_randint_like input lo hi dt dev w1
       = unseeded_draw (RandInt lo h) (t_shape input) dev' dt' w1) ∧
    (∀ e, refused_bounds "randint_like" lo hi dt' = Some e →
       torch_randint_like input lo hi dt dev w1 = (Raise e, w1))).
  { split.
    - intros h -> Hok. unfold torch_randint_like. cbv zeta.
      fold dt'. by rewrite Hok.
    - intros e He. by apply torch_randint_like_refused. }
  destruct Hcases as [Hok Hbad].
  destruct hi as [h|].
  - destruct (randint_check lo h dt') as [e|] eqn:Hc.
    + rewrite (Hbad e) by done. split_and!; try done.
      * intros h' [= <-] Hc'. by rewrite Hc in Hc'.
      * cbn [refused_bounds]. rewrite Hc. by intros e' [= <-].
    + rewrite (Hok h) by done. split_and!; try done.
      * by intros h' [= <-] _.
      * cbn [refused_bounds]. rewrite Hc. by intros e' [=].
  - rewrite (Hbad (invalid_arguments "randint_like")) by done.
    split_and!; try done. by intros e [= <-].
Qed.

(** X3.  Neither override looks at a generator before the batch-size
    check: an input without a batch dimension makes both raise
    [IndexError], and an empty list of generators makes both raise
    [ZeroDivisionError] for every other input; nothing is drawn and
    nothing is printed. *)
Theorem override_check_errors self input args high low dt dev w :
  (t_shape input = [] →
   randn_like self input dt dev w = (Raise IndexError, w) ∧
   randint_like self input args high low dt dev w = (Raise IndexError, w)) ∧
  (t_shape input ≠ [] → generators self = [] →
   randn_like self input dt dev w = (Raise ZeroDivisionError, w) ∧
   randint_like self input args high low dt dev w
   = (Raise ZeroDivisionError, w)).
Proof.
  split.
  - intros Hshape. unfold randn_like, randint_like.
    destruct (randint_bounds args high low) as [lo hi].
    unfold bind, batch_mismatch. by rewrite Hshape.
  - intros Hshape Hnil. unfold randn_like, randint_like.
    destruct (randint_bounds args high low) as [lo hi].
    unfold bind, batch_mismatch. rewrite Hnil.
    by destruct (t_shape input).
Qed.

(** X4.  The batched draws use the listed generators and nothing else:
    whatever the request, and whether the call returns or raises, the
    default generators of torch and the standard output are as before,
    and so is every generator that is not on the list. *)
Theorem batched_draw_touches_listed_generators_only
    normal shape gens dev dt w :
  let w' := (batched_draw normal shape gens dev dt w).2 in
  defaults w' = defaults w ∧
  stdout w' = stdout w ∧
  ∀ g, g ∉ gens → heap w' g = heap w g.
Proof.
  intros w'. subst w'. rewrite batched_draw_eq.
  destruct (is_floating_point dt) eqn:Hf; cycle 1.
  { destruct (batched_refused (kind_of normal) shape gens dev dt Hf)
      as (e & -> & _). done. }
  rewrite batched_float by done.
  destruct shape as [|n tr]; [done|].
  destruct (decide (gens = [])) as [->|Hne]; [done|].
  destruct (decide (n mod length gens = 0)) as [Hmod|Hmod].
  - destruct (batched_run (kind_of normal) n tr gens dev dt w Hne Hmod)
      as (w' & -> & Hheap & Hdef & _ & Hout).
    cbn [snd]. split_and!; try done.
    intros g Hg. rewrite Hheap, occurrences_list_mul.
    rewrite occurrences_not_in by done. rewrite Nat.mul_0_r. simpl.
    by destruct (heap w g).
  - by rewrite batched_mismatch.
Qed.

(** X24.  On the batched path [randint_like] raises what
    [torch.randint] raises for bounds it refuses, at the first generator:
    nothing is drawn, printed or otherwise changed.  A call that gives no
    [high] raises the [TypeError] of the argument parser, and an empty
    range a [RuntimeError]. *)
Theorem randint_like_refused_bounds
    self input args high low dt dev n tr lo hi w :
  t_shape input = n :: tr → generators self ≠ [] →
  n mod length (generators self) = 0 →
  randint_bounds args high low = (lo, hi) →
  let r := randint_like self input args high low dt dev w in
  (∀ e, refused_bounds "randint" lo hi (default Int64 dt) = Some e →
        r = (Raise e, w)) ∧
  (hi = None → r = (Raise (invalid_arguments "randint"), w)) ∧
  (∀ h, hi = Some h → (h ≤ lo)%Z → ∃ msg, r = (Raise (RuntimeError msg), w)).
Proof.
  intros Hshape Hne Hmod Hbounds r.
  assert (Hraise : ∀ e, refused_bounds "randint" lo hi (default Int64 dt) = Some e →
                        r = (Raise e, w)).
  { intros e He. subst r. unfold randint_like. rewrite Hbounds.
    unfold bind at 1. rewrite Hshape, batch_mismatch_cons by done.
    rewrite bool_decide_eq_false_2 by (by intros []).
    unfold bind at 1. destruct (generators self) as [|g gens]; [done|].
    rewrite (comprehension_raise _ e); [done|].
    by apply torch_randint_refused. }
  split_and!.
  - done.
  - intros ->. by apply Hraise.
  - intros h -> Hle.
    destruct (randint_check_empty lo h (default Int64 dt) Hle) as [msg Hmsg].
    exists msg. by apply Hraise.
Qed.

End OverrideMore.

(** ** More on the batch partitioner *)

Section PartitionerMore.
Context `{TB : TorchBackend}.

Lemma comprehension_app {S A B} (f : A → Eff S B) xs1 xs2 s :
  comprehension f (xs1 ++ xs2) s =
  match comprehension f xs1 s with
  | (Return ys1, s1) =>
      match comprehension f xs2 s1 with
      | (Return ys2, s2) => (Return (ys1 ++ ys2), s2)
      | (Raise e, s2) => (Raise e, s2)
      end
  | (Raise e, s1) => (Raise e, s1)
  end.
Proof.
  revert s. induction xs1 as [|x xs1 IH]; intros s.
  - simpl. unfold ret. by destruct (comprehension f xs2 s) as [[ys|e] s2].
  - rewrite <-app_comm_cons, !comprehension_cons.
    destruct (f x s) as [[y|e] s1]; [|done]. rewrite IH.
    destruct (comprehension f xs1 s1) as [[ys1|e] s2]; [|done].
    by destruct (comprehension f xs2 s2) as [[ys2|e] s3].
Qed.

Lemma list_mul_add {A} (l : list A) k1 k2 :
  list_mul l (k1 + k2) = list_mul l k1 ++ list_mul l k2.
Proof.
  induction k1 as [|k1 IH]; [done|].
  by rewrite Nat.add_succ_l, !list_mul_S, IH, app_assoc.
Qed.

(** A call that passes the check, in terms of its comprehension. *)
Lemma batched_unfold d n tr gens dev dt w :
  gens ≠ [] → n mod length gens = 0 →
  ∃ ys w',
    comprehension
      (λ g w, seeded_draw d (1 :: tr) g (g_device (heap w g)) dt w)
      (list_mul gens (n / length gens)) w = (Return ys, w') ∧
    batched (seeded_draw d) (n :: tr) gens dev dt w
    = (finish (Some dev) (torch_cat ys w').1, w').
Proof.
  intros Hne Hmod.
  destruct (comprehension_draws d dt (1 :: tr)
              (list_mul gens (n / length gens)) w) as (w' & Hrun & _).
  eexists _, w'. split; [exact Hrun|].
  unfold batched. unfold bind at 1. rewrite batch_mismatch_cons by done.
  rewrite bool_decide_eq_false_2 by (by intros []).
  unfold bind at 1. cbn [hd tail]. rewrite Hrun. apply cat_then_to.
Qed.

Lemma finish_data dev ys w t :
  finish dev (torch_cat ys w).1 = Return t →
  t_data t = concat (t_data <$> ys).
Proof.
  destruct (torch_cat ys w).1 as [latents|e] eqn:Hcat; [|done].
  intros [= <-]. by apply torch_cat_data in Hcat.
Qed.

(** X5.  Batches compose, for a floating-point dtype: a call for
    [n1 + n2] samples yields the samples of a call for [n1] followed by
    those of a call for [n2] made right after it, and leaves the world
    exactly as the two calls do. *)
Theorem batched_draw_splits normal n1 n2 tr gens dev dt dev0 w :
  is_floating_point dt = true →
  gens ≠ [] → 0 < n1 → 0 < n2 →
  n1 mod length gens = 0 → n2 mod length gens = 0 →
  all_on dev0 gens w →
  let r1 := batched_draw normal (n1 :: tr) gens dev dt w in
  let r2 := batched_draw normal (n2 :: tr) gens dev dt r1.2 in
  let r := batched_draw normal ((n1 + n2) :: tr) gens dev dt w in
  r.2 = r2.2 ∧
  ∃ t1 t2 t, r1.1 = Return t1 ∧ r2.1 = Return t2 ∧ r.1 = Return t ∧
             t_data t = t_data t1 ++ t_data t2.
Proof.
  intros Hf Hne Hn1 Hn2 Hm1 Hm2 Hdev r1 r2 r. subst r1 r2 r.
  rewrite !batched_draw_float by done. set (d := kind_of normal).
  assert (HG : length gens ≠ 0) by (by destruct gens).
  assert (Hm : (n1 + n2) mod length gens = 0).
  { rewrite Nat.Div0.add_mod, Hm1, Hm2. simpl. by apply Nat.Div0.mod_0_l. }
  assert (Hdiv : (n1 + n2) / length gens = n1 / length gens + n2 / length gens).
  { pose proof (Nat.Div0.div_exact n1 (length gens)) as [_ H1].
    pose proof (Nat.Div0.div_exact n2 (length gens)) as [_ H2].
    rewrite (H1 Hm1) at 1. rewrite (H2 Hm2) at 1.
    rewrite <-Nat.mul_add_distr_l, Nat.mul_comm. by apply Nat.div_mul. }
  destruct (batched_returns d n1 tr gens dev dt dev0 w Hne Hn1 Hm1 Hdev)
    as [_ Hret1].
  destruct (batched_unfold d n1 tr gens dev dt w Hne Hm1)
    as (ys1 & w1 & Hc1 & Hb1).
  assert (Hdev1 : all_on dev0 gens w1).
  { destruct (comprehension_draws d dt (1 :: tr)
                (list_mul gens (n1 / length gens)) w)
      as (w1' & Hrun & Hheap & _).
    rewrite Hc1 in Hrun. injection Hrun as _ <-.
    intros g Hg. rewrite Hheap. cbn [g_device]. by apply Hdev. }
  rewrite Hb1 in Hret1 |- *. cbn [fst snd] in Hret1 |- *.
  destruct (batched_returns d n2 tr gens dev dt dev0 w1 Hne Hn2 Hm2 Hdev1)
    as [_ Hret2].
  destruct (batched_unfold d n2 tr gens dev dt w1 Hne Hm2)
    as (ys2 & w2 & Hc2 & Hb2).
  rewrite Hb2 in Hret2 |- *. cbn [fst snd] in Hret2 |- *.
  destruct (batched_returns d (n1 + n2) tr gens dev dt dev0 w Hne
              ltac:(lia) Hm Hdev) as [_ Hret].
  destruct (batched_unfold d (n1 + n2) tr gens dev dt w Hne Hm)
    as (ys & w' & Hc & Hb).
  rewrite Hb in Hret |- *. cbn [fst snd] in Hret |- *.
  rewrite Hdiv, list_mul_add, comprehension_app, Hc1, Hc2 in Hc.
  injection Hc as <- <-.
  split; [done|].
  eexists _, _, _. split_and!; [exact Hret1|exact Hret2|exact Hret|].
  cbn [t_data].
  apply finish_data in Hret1, Hret2, Hret. cbn [t_data] in Hret1, Hret2, Hret.
  by rewrite Hret, Hret1, Hret2, fmap_app, concat_app.
Qed.

Lemma occurrences_take_NoDup g gens m :
  NoDup gens → gens !! m = Some g → occurrences g (take m gens) = 0.
Proof.
  intros Hnd Hm. apply occurrences_not_in. intros Hin.
  apply list_elem_of_lookup in Hin as [j Hj].
  pose proof (lookup_lt_Some _ _ _ Hj) as Hlt. rewrite length_take in Hlt.
  rewrite lookup_take_lt in Hj by lia.
  assert (j = m) by (by eapply NoDup_lookup). lia.
Qed.

(** How often the generator of position [i] was used before position
    [i], in a cycled list without repeated objects. *)
Lemma occurrences_take_list_mul g gens k i :
  NoDup gens → i < k * length gens → gens !! (i mod length gens) = Some g →
  occurrences g (take i (list_mul gens k)) = i / length gens.
Proof.
  intros Hnd. revert i. induction k as [|k IH]; intros i Hi Hg; [lia|].
  assert (HG : length gens ≠ 0) by lia.
  rewrite list_mul_S.
  destruct (decide (i < length gens)) as [Hlt|Hge].
  - rewrite take_app_le by lia. rewrite Nat.mod_small in Hg by done.
    rewrite Nat.div_small by done. by apply occurrences_take_NoDup.
  - rewrite take_app_ge by lia. rewrite occurrences_app.
    assert (Hmod : (i - length gens) mod length gens = i mod length gens).
    { replace i with ((i - length gens) + 1 * length gens) at 2 by lia.
      by rewrite Nat.Div0.mod_add. }
    rewrite IH; [|lia|by rewrite Hmod].
    rewrite occurrences_NoDup; [|done|by eapply list_elem_of_lookup_2].
    replace i with ((i - length gens) + 1 * length gens) at 2 by lia.
    rewrite Nat.div_add by done. lia.
Qed.

(** X6.  With no generator listed twice, sample [i] of the batch is what
    generator [i mod G] produces at its [(i / G)]-th draw after the state
    it is in when the call is made. *)
Theorem sample_is_stream_round normal n tr gens dev dt w t i g :
  NoDup gens → n mod length gens = 0 → i < n →
  gens !! (i mod length gens) = Some g →
  (batched_draw normal (n :: tr) gens dev dt w).1 = Return t →
  slice_of (numel (1 :: tr)) t i
  = (sample (kind_of normal) dt (1 :: tr)
       (Nat.iter (i / length gens) (advance (kind_of normal) dt (1 :: tr))
                 (g_state (heap w g)))).1.
Proof.
  intros Hnd Hmod Hi Hg Hret. rewrite batched_draw_eq in Hret.
  assert (Hne : gens ≠ []) by (by intros ->).
  destruct (is_floating_point dt) eqn:Hf; cycle 1.
  { destruct (batched_refused (kind_of normal) (n :: tr) gens dev dt Hf)
      as (e & He & _). by rewrite He in Hret. }
  rewrite batched_float in Hret by done.
  assert (Hlen : i < n / length gens * length gens).
  { pose proof (Nat.Div0.div_exact n (length gens)) as [_ Hex].
    rewrite (Hex Hmod) in Hi. lia. }
  rewrite (slice_of_batched _ n tr gens dev dt w t i g Hne Hmod Hret).
  - unfold expected_slice. cbn [t_data].
    by rewrite occurrences_take_list_mul.
  - by rewrite lookup_list_mul.
Qed.

(** X25.  For an integer dtype neither batched draw ever returns, and
    neither changes anything: whatever the shape and the generators the
    call raises and leaves the world as it was; when the batch size is a
    positive multiple of the number of generators, what it raises is the
    error of [torch.rand] / [torch.randn] at the first sample. *)
Theorem batched_draw_integer_dtype normal shape gens dev dt w :
  is_floating_point dt = false →
  (∃ e, batched_draw normal shape gens dev dt w = (Raise e, w)) ∧
  (∀ n tr, shape = n :: tr → gens ≠ [] → 0 < n → n mod length gens = 0 →
     batched_draw normal shape gens dev dt w
     = (Raise (not_implemented_for dt), w)).
Proof.
  intros Hf. rewrite batched_draw_eq. split.
  - destruct (batched_refused (kind_of normal) shape gens dev dt Hf)
      as (e & He & _).
    exists e. apply He.
  - intros n tr -> Hne Hpos Hmod.
    unfold batched, bind. rewrite batch_mismatch_cons by done.
    rewrite bool_decide_eq_false_2 by (by intros []). cbn [hd tail].
    assert (HG : length gens ≠ 0) by (by destruct gens).
    destruct (n / length gens) as [|k] eqn:Hk.
    { pose proof (Nat.Div0.div_exact n (length gens)) as [_ Hex].
      rewrite (Hex Hmod), Hk in Hpos. lia. }
    rewrite list_mul_S. destruct gens as [|g gens']; [done|].
    rewrite <-app_comm_cons.
    rewrite (comprehension_raise _ (not_implemented_for dt)); [done|].
    unfold float_draw. by rewrite Hf.
Qed.

End PartitionerMore.

(** ** More on the tracker *)

Section TrackerMore.
Context `{TB : TorchBackend}.
Variable sink_accepts : list string → string → bool.
Context {value result : Type}.
Implicit Types (wrapped : entry_point (value:=value) (result:=result)).

(** X7.  Calls that pass [generator=] are invisible to the tracker:
    whatever the sink does, a sequence of such calls leaves [warned] and
    the log as they were and has on torch the effect of the wrapped
    calls alone. *)
Theorem tracker_ignores_seeded_calls wrapped calls p :
  Forall (λ c, c_kwargs c !! "generator" ≠ None) calls →
  let p' := run_calls sink_accepts wrapped calls p in
  warned p' = warned p ∧ log p' = log p ∧
  torch_state p'
  = foldl (λ w c, (wrapped (c_args c) (c_kwargs c) w).2) (torch_state p) calls.
Proof.
  intros Hgen. revert p. induction Hgen as [|c calls Hc Hgen IH]; intros p.
  - done.
  - cbn zeta. rewrite run_calls_cons. cbn zeta in IH.
    destruct (IH (tracker sink_accepts wrapped (c_frame c) (c_args c)
                    (c_kwargs c) p).2) as (Hw & Hl & Ht).
    rewrite Hw, Hl, Ht. by rewrite tracker_with_generator.
Qed.

(** X8.  The warning comes before the call: when a warning is due and
    the sink takes it, the key is recorded and the warning logged even if
    the wrapped operation then raises, so that a later call from the same
    place is silent. *)
Theorem tracker_warns_before_forwarding wrapped caller args kwargs p e :
  kwargs !! "generator" = None → fullstr caller ∉ warned p →
  sink_accepts (log p) (warning (fullstr caller)) = true →
  (wrapped args kwargs (torch_state p)).1 = Raise e →
  let r := tracker sink_accepts wrapped caller args kwargs p in
  r.1 = Raise e ∧
  fullstr caller ∈ warned r.2 ∧
  log r.2 = log p ++ [warning (fullstr caller)] ∧
  ∀ args' kwargs',
    log (tracker sink_accepts wrapped caller args' kwargs' r.2).2 = log r.2.
Proof.
  intros Hgen Hnew Hsink Hraise r. subst r.
  rewrite tracker_fresh_accepted by done.
  unfold in_torch at 1 2 3. cbn [fst snd warned log torch_state].
  split_and!; [done|set_solver|done|].
  intros args' kwargs'.
  destruct (decide (kwargs' !! "generator" = None)) as [Hg|Hg].
  - rewrite tracker_seen; [done|done|]. unfold in_torch. cbn [snd warned].
    set_solver.
  - by rewrite tracker_with_generator.
Qed.

(** X9.  [warn_on_nondeterministic_rand] wraps each of the six entry
    points with [tracker], and the six wrappers share the one [warned]
    set: once a call through any of them has been warned about, a call
    from the same place through any other of them logs nothing. *)
Theorem installed_wrappers_share_warned
    (torch : torch_entries (entry_point (value:=value) (result:=result)))
    name1 name2 caller args1 kwargs1 args2 kwargs2 p :
  kwargs1 !! "generator" = None →
  sink_accepts (log p) (warning (fullstr caller)) = true →
  let installed := warn_on_nondeterministic_rand sink_accepts torch in
  let p1 := (get_entry name1 installed caller args1 kwargs1 p).2 in
  get_entry name1 installed = tracker sink_accepts (get_entry name1 torch) ∧
  fullstr caller ∈ warned p1 ∧
  log (get_entry name2 installed caller args2 kwargs2 p1).2 = log p1.
Proof.
  intros Hgen Hsink installed p1.
  assert (Hinst : ∀ name, get_entry name installed
                          = tracker sink_accepts (get_entry name torch)).
  { by intros []. }
  assert (Hin : fullstr caller ∈ warned p1).
  { subst p1. rewrite Hinst.
    destruct (decide (fullstr caller ∈ warned p)) as [Hseen|Hnew].
    - by rewrite tracker_seen.
    - rewrite tracker_fresh_accepted by done. unfold in_torch.
      cbn [snd warned]. set_solver. }
  split_and!; [done|done|]. rewrite Hinst.
  destruct (decide (kwargs2 !! "generator" = None)) as [Hg|Hg].
  - by rewrite tracker_seen.
  - by rewrite tracker_with_generator.
Qed.

End TrackerMore.

(** ** logging.py: the stored log *)

Section StoreHandlerFacts.
Context {timestamp : Type}.
Implicit Types (self : store_handler (timestamp:=timestamp)).
Implicit Types (record : log_record (timestamp:=timestamp)).

(** The last [m] elements of a list. *)
Lemma py_slice_from_last {A} (m : Z) (l : list A) :
  (1 ≤ m)%Z → py_slice_from (- m) l = drop (length l - Z.to_nat m) l.
Proof.
  intros Hm. unfold py_slice_from.
  assert ((- m <? 0)%Z = true) as -> by (apply Z.ltb_lt; lia).
  f_equal. lia.
Qed.

Lemma py_slice_from_nonneg {A} (k : Z) (l : list A) :
  (0 ≤ k)%Z → py_slice_from k l = drop (Z.to_nat k) l.
Proof.
  intros Hk. unfold py_slice_from.
  assert ((k <? 0)%Z = false) as -> by (apply Z.ltb_ge; lia).
  destruct (decide (k ≤ Z.of_nat (length l))%Z) as [Hle|Hgt].
  - by rewrite Z.min_l by lia.
  - rewrite Z.min_r by lia. rewrite Nat2Z.id.
    rewrite !drop_ge; [done|lia..].
Qed.

Lemma drop_last_app {A} (m : nat) (l k : list A) :
  drop (length (drop (length l - m) l ++ k) - m) (drop (length l - m) l ++ k)
  = drop (length (l ++ k) - m) (l ++ k).
Proof.
  rewrite !length_app, length_drop.
  destruct (decide (length l ≤ m)%nat) as [Hle|Hgt].
  - replace (length l - m) with 0 by lia. rewrite drop_0.
    f_equal. lia.
  - replace (length l - (length l - m) + length k - m) with (length k) by lia.
    replace (length l + length k - m) with ((length l - m) + length k) by lia.
    rewrite <-drop_drop. f_equal. rewrite drop_app_le by lia. done.
Qed.

Lemma emit_stored filter self record msg :
  filter record = true → rec_message record = Some msg →
  emit filter self record
  = Emitted (StoreHandlerState
      (py_slice_from (- max_len self)
         (logs self ++ [LogEntry (rec_created record) (rec_name record) msg]))
      (max_len self)).
Proof. intros Hf Hm. unfold emit. by rewrite Hf, Hm. Qed.

(** X10.  With [max_len >= 1], a record that passes the filter is stored
    as the newest entry, the older entries keep their order, and the
    handler drops entries from the front only, as many as needed to hold
    at most [max_len] entries. *)
Theorem store_handler_emit_bounded filter self record self' :
  (1 ≤ max_len self)%Z → filter record = true →
  emit filter self record = Emitted self' →
  ∃ msg, rec_message record = Some msg ∧
    let entry := LogEntry (rec_created record) (rec_name record) msg in
    max_len self' = max_len self ∧
    logs self' = drop (length (logs self) + 1 - Z.to_nat (max_len self))
                      (logs self ++ [entry]) ∧
    (length (logs self') ≤ Z.to_nat (max_len self))%nat ∧
    list.last (logs self') = Some entry ∧
    (length (logs self) < Z.to_nat (max_len self) →
     logs self' = logs self ++ [entry]).
Proof.
  intros Hmax Hf Hemit. unfold emit in Hemit. rewrite Hf in Hemit.
  destruct (rec_message record) as [msg|]; [|done].
  injection Hemit as <-. exists msg. split; [done|]. cbn zeta.
  cbn [logs max_len]. rewrite py_slice_from_last by done.
  rewrite length_app. cbn [length].
  split_and!; try done.
  - rewrite length_drop, length_app. cbn [length]. lia.
  - rewrite drop_app_le by lia. apply last_snoc.
  - intros Hlt.
    replace (length (logs self) + 1 - Z.to_nat (max_len self)) with 0 by lia.
    by rewrite drop_0.
Qed.

Lemma entries_of_cons_stored filter record records msg :
  filter record = true → rec_message record = Some msg →
  entries_of filter (record :: records)
  = LogEntry (rec_created record) (rec_name record) msg
    :: entries_of filter records.
Proof. intros Hf Hm. unfold entries_of. simpl. by rewrite Hf, Hm. Qed.

Lemma entries_of_cons_filtered filter record records :
  filter record = false →
  entries_of filter (record :: records) = entries_of filter records.
Proof. intros Hf. unfold entries_of. simpl. by rewrite Hf. Qed.

(** The log after a sequence of emits, for any [max_len >= 1]. *)
Lemma emit_all_last filter self records self' :
  (1 ≤ max_len self)%Z →
  (length (logs self) ≤ Z.to_nat (max_len self))%nat →
  emit_all filter self records = Emitted self' →
  max_len self' = max_len self ∧
  logs self'
  = drop (length (logs self ++ entries_of filter records)
          - Z.to_nat (max_len self))
         (logs self ++ entries_of filter records).
Proof.
  revert self. induction records as [|r records IH]; intros self Hmax Hlen Hall.
  - injection Hall as <-. split; [done|].
    unfold entries_of. simpl. rewrite app_nil_r.
    replace (length (logs self) - Z.to_nat (max_len self)) with 0 by lia.
    by rewrite drop_0.
  - cbn [emit_all] in Hall.
    destruct (emit filter self r) as [self1|a] eqn:Hemit; [|done].
    unfold emit in Hemit.
    destruct (filter r) eqn:Hf.
    + destruct (rec_message r) as [msg|] eqn:Hmsg; [|done].
      injection Hemit as <-.
      rewrite (entries_of_cons_stored _ _ _ msg) by done.
      set (entry := LogEntry _ _ msg) in *.
      apply IH in Hall; cbn [logs max_len] in *; [|done|].
      * destruct Hall as [-> ->]. split; [done|].
        rewrite py_slice_from_last by done.
        rewrite drop_last_app.
        by rewrite <-app_assoc.
      * rewrite py_slice_from_last by done.
        rewrite length_drop, length_app. cbn [length]. lia.
    + injection Hemit as <-. rewrite entries_of_cons_filtered by done.
      by apply IH in Hall.
Qed.

(** X11.  A handler as [__init__] makes it holds the entries of the last
    1000 records that passed the filter, oldest first. *)
Theorem store_handler_keeps_last_1000 filter records self' :
  emit_all filter store_handler_init records = Emitted self' →
  logs self' = drop (length (entries_of filter records) - 1000)
                    (entries_of filter records) ∧
  (length (logs self') ≤ 1000)%nat ∧
  max_len self' = 1000%Z.
Proof.
  intros Hall.
  apply emit_all_last in Hall as [Hmax Hlogs];
    [|done|cbn [store_handler_init logs max_len length]; lia].
  cbn [store_handler_init logs max_len] in *.
  rewrite app_nil_l in Hlogs.
  change (Z.to_nat 1000) with 1000 in Hlogs.
  split_and!; [done| |done].
  rewrite Hlogs, length_drop. lia.
Qed.

(** X12.  The only way [emit] fails is a record that passes the filter
    and was never formatted (it has no [message]); the error names that
    attribute, and the same holds for a sequence of calls. *)
Theorem store_handler_fails_on_unformatted filter self records a :
  emit_all filter self records = AttributeError a ↔
  a = "message" ∧
  ∃ r, r ∈ records ∧ filter r = true ∧ rec_message r = None.
Proof.
  revert self. induction records as [|r records IH]; intros self.
  - split; [done|]. intros (_ & r & Hr & _). by apply elem_of_nil in Hr.
  - cbn [emit_all]. unfold emit.
    destruct (filter r) eqn:Hf; [destruct (rec_message r) as [msg|] eqn:Hm|].
    + rewrite IH. split; intros (-> & r' & Hr' & Hf' & Hm'); (split; [done|]).
      * exists r'. split; [by apply elem_of_cons; right|done].
      * apply elem_of_cons in Hr' as [->|Hr']; [congruence|]. eauto.
    + split.
      * intros [= <-]. split; [done|]. exists r. split; [|done].
        apply elem_of_cons; by left.
      * by intros (-> & _).
    + rewrite IH. split; intros (-> & r' & Hr' & Hf' & Hm'); (split; [done|]).
      * exists r'. split; [by apply elem_of_cons; right|done].
      * apply elem_of_cons in Hr' as [->|Hr']; [congruence|]. eauto.
Qed.

(** X13.  [max_len] bounds the log only when it is positive: with
    [max_len = 0] the slice [logs[-0:]] is the whole list and every entry
    is kept; with a negative [max_len] each call drops [- max_len] entries
    from the front instead. *)
Theorem store_handler_nonpositive_max_len filter self record msg :
  (max_len self ≤ 0)%Z →
  filter record = true → rec_message record = Some msg →
  let entry := LogEntry (rec_created record) (rec_name record) msg in
  emit filter self record
  = Emitted (StoreHandlerState
      (drop (Z.to_nat (- max_len self)) (logs self ++ [entry]))
      (max_len self)) ∧
  (max_len self = 0%Z →
   emit filter self record
   = Emitted (StoreHandlerState (logs self ++ [entry]) 0)).
Proof.
  intros Hmax Hf Hm entry. rewrite (emit_stored _ _ _ msg) by done.
  fold entry. rewrite py_slice_from_nonneg by lia. split; [done|].
  intros ->. by rewrite drop_0.
Qed.

End StoreHandlerFacts.

(** ** The further statements at concrete inputs *)

Module MoreExamples.
Import Counter Inputs.

Lemma randint_like_one_row_per_generator_witness :
  ∃ t, (randint_like override01 input42 [7%Z] None None None None w0).1
       = Return t ∧ t_shape t = [2; 2] ∧ t_dtype t = Int64.
Proof.
  destruct (randint_like_one_row_per_generator override01 input42 [7%Z]
              None None None None 4 [2] 0%Z 7%Z CPU w0 eq_refl
              ltac:(discriminate) eq_refl eq_refl eq_refl
              (Examples.all_on_cpu_w0 _))
    as (t & Ht & Hs & Hd & _).
  exists t. by repeat split.
Defined.

Lemma randint_like_fallback_witness :
  stdout (randint_like override01 input32 [7%Z] None None None None w0).2
  = stdout w0 ++ ["Skip"].
Proof.
  exact (proj1 (proj2 (randint_like_fallback override01 input32 [7%Z]
    None None None None 3 [2] 0%Z (Some 7%Z) w0 eq_refl ltac:(discriminate)
    ltac:(discriminate) eq_refl))).
Defined.

Lemma override_check_errors_witness :
  randn_like {| generators := [] |} input42 None None w0
  = (Raise ZeroDivisionError, w0).
Proof.
  exact (proj1 (proj2 (override_check_errors {| generators := [] |} input42
    [] None None None None w0) ltac:(discriminate) eq_refl)).
Defined.

Lemma randint_like_refused_bounds_witness :
  randint_like override01 input42 [] None None None None w0
  = (Raise (invalid_arguments "randint"), w0).
Proof.
  exact (proj1 (proj2 (randint_like_refused_bounds override01 input42 []
    None None None None 4 [2] 0%Z None w0 eq_refl ltac:(discriminate)
    eq_refl eq_refl)) eq_refl).
Defined.

(** The fallback with no [high]: the line is printed, then
    [torch.randint_like] raises. *)
Example randint_like_fallback_refused_run :
  (randint_like override01 input32 [] None None None None w0).1
  = Raise (TypeError "randint_like() received an invalid combination of arguments") ∧
  stdout (randint_like override01 input32 [] None None None None w0).2
  = ["Skip"] ∧
  history (randint_like override01 input32 [] None None None None w0).2 = [].
Proof. by vm_compute. Qed.

Lemma batched_draw_integer_dtype_witness :
  batched_draw true [4; 2] [0; 1] CPU Int32 w0
  = (Raise (not_implemented_for Int32), w0).
Proof.
  exact (proj2 (batched_draw_integer_dtype true [4; 2] [0; 1] CPU Int32 w0
    eq_refl) 4 [2] eq_refl ltac:(discriminate) ltac:(lia) eq_refl).
Defined.

Lemma batched_draw_splits_witness :
  (batched_draw false [6; 1] [0; 1] CPU Float32 w0).2
  = (batched_draw false [4; 1] [0; 1] CPU Float32
       (batched_draw false [2; 1] [0; 1] CPU Float32 w0).2).2.
Proof.
  exact (proj1 (batched_draw_splits false 2 4 [1] [0; 1] CPU Float32 CPU w0
    eq_refl ltac:(discriminate) ltac:(lia) ltac:(lia) eq_refl eq_refl
    (Examples.all_on_cpu_w0 _))).
Defined.

Example batched_draw_splits_run :
  (batched_rand [6; 1] [0; 1] CPU Float32 w0).1
  = Return (Tensor [6; 1] [0; 100; 1; 101; 2; 102] CPU Float32) ∧
  (batched_rand [2; 1] [0; 1] CPU Float32 w0).1
  = Return (Tensor [2; 1] [0; 100] CPU Float32) ∧
  (batched_rand [4; 1] [0; 1] CPU Float32
     (batched_rand [2; 1] [0; 1] CPU Float32 w0).2).1
  = Return (Tensor [4; 1] [1; 101; 2; 102] CPU Float32).
Proof. by vm_compute. Qed.

Lemma sample_is_stream_round_witness :
  slice_of (numel [1; 1]) (Tensor [6; 1] [0; 100; 1; 101; 2; 102] CPU Float32) 5
  = (sample Uniform Float32 [1; 1]
       (Nat.iter (5 / length [0; 1]) (advance Uniform Float32 [1; 1])
                 (g_state (heap w0 1)))).1.
Proof.
  refine (sample_is_stream_round false 6 [1] [0; 1] CPU Float32 w0 _ 5 1
            _ eq_refl ltac:(lia) eq_refl eq_refl).
  repeat constructor; [|by intros ?%elem_of_nil].
  intros [?|?%elem_of_nil]%elem_of_cons; [discriminate|done].
Defined.

Lemma tracker_ignores_seeded_calls_witness :
  log (run_calls reject_all seeded_randn seeded_calls p0) = log p0.
Proof.
  refine (proj1 (proj2 (tracker_ignores_seeded_calls reject_all seeded_randn
                          seeded_calls p0 _))).
  repeat constructor; by vm_compute.
Defined.

Lemma tracker_warns_before_forwarding_witness :
  (tracker accept_all failing_rand sampler_line_10 [] ∅ p0).1
  = Raise (RuntimeError "out of memory") ∧
  log (tracker accept_all failing_rand sampler_line_10 [] ∅ p0).2
  = log p0 ++ [warning (fullstr sampler_line_10)].
Proof.
  destruct (tracker_warns_before_forwarding accept_all failing_rand
              sampler_line_10 [] ∅ p0 (RuntimeError "out of memory")
              ltac:(by vm_compute) ltac:(by vm_compute) eq_refl eq_refl)
    as (H1 & _ & H2 & _).
  by split.
Defined.

Lemma installed_wrappers_share_warned_witness :
  log (get_entry Randn (warn_on_nondeterministic_rand accept_all six_entries)
         sampler_line_10 [] ∅
         (get_entry RandintLike
            (warn_on_nondeterministic_rand accept_all six_entries)
            sampler_line_10 [] ∅ p0).2).2
  = log (get_entry RandintLike
           (warn_on_nondeterministic_rand accept_all six_entries)
           sampler_line_10 [] ∅ p0).2.
Proof.
  exact (proj2 (proj2 (installed_wrappers_share_warned accept_all six_entries
    RandintLike Randn sampler_line_10 [] ∅ [] ∅ p0
    ltac:(by vm_compute) eq_refl))).
Defined.

Lemma store_handler_emit_bounded_witness :
  ∃ msg, rec_message (formatted 3) = Some msg.
Proof.
  destruct (store_handler_emit_bounded keep_all store_handler_init (formatted 3)
              _ ltac:(by vm_compute) eq_refl eq_refl) as (msg & Hmsg & _).
  by exists msg.
Defined.

Lemma store_handler_keeps_last_1000_witness :
  logs (StoreHandlerState
          [LogEntry 1 "gyre" "ready"; LogEntry 2 "gyre" "ready"] 1000)
  = drop (length (entries_of keep_all [formatted 1; formatted 2]) - 1000)
         (entries_of keep_all [formatted 1; formatted 2]).
Proof.
  exact (proj1 (store_handler_keeps_last_1000 keep_all
                  [formatted 1; formatted 2] _ eq_refl)).
Defined.

(** An unformatted record stops the handler; this is a sink that raises
    in the middle of [logger.warn]. *)
Example store_handler_unformatted_run :
  emit_all keep_all store_handler_init [formatted 1; unformatted; formatted 2]
  = AttributeError "message".
Proof. reflexivity. Qed.

Lemma store_handler_nonpositive_max_len_witness :
  emit keep_all (StoreHandlerState [LogEntry 1 "gyre" "ready"] 0) (formatted 2)
  = Emitted (StoreHandlerState
               [LogEntry 1 "gyre" "ready"; LogEntry 2 "gyre" "ready"] 0).
Proof.
  exact (proj2 (store_handler_nonpositive_max_len keep_all
    (StoreHandlerState [LogEntry 1 "gyre" "ready"] 0) (formatted 2) "ready"
    ltac:(by vm_compute) eq_refl eq_refl) eq_refl).
Defined.

End MoreExamples.

(** ** images.py: slicing and kernels *)

Lemma take_min_length {B} (l : list B) n : take (n `min` length l) l = take n l.
Proof.
  destruct (decide (n ≤ length l)%nat) as [Hle|Hgt].
  - by rewrite Nat.min_l.
  - rewrite Nat.min_r by lia. rewrite take_ge by lia. by rewrite take_ge by lia.
Qed.

(** A slice with non-negative start and length. *)
Lemma py_slice_nonneg {B} (l : list B) (start len : Z) :
  (0 ≤ start)%Z → (0 ≤ len)%Z →
  py_slice start (start + len) l
  = take (Z.to_nat len) (drop (Z.to_nat start) l).
Proof.
  intros Hs Hl. unfold py_slice, py_index.
  assert ((start <? 0)%Z = false) as -> by (apply Z.ltb_ge; lia).
  assert ((start + len <? 0)%Z = false) as -> by (apply Z.ltb_ge; lia).
  destruct (decide (start ≤ Z.of_nat (length l))%Z) as [Hin|Hout].
  - rewrite (Z.min_l start) by lia.
    rewrite <-(take_min_length (drop (Z.to_nat start) l) (Z.to_nat len)).
    rewrite length_drop. f_equal. lia.
  - rewrite (Z.min_r start) by lia. rewrite Nat2Z.id.
    rewrite drop_all, take_nil. rewrite drop_ge by lia. by rewrite take_nil.
Qed.

Lemma drop_of_take {B} (l : list B) m n :
  drop m (take n l) = take (n - m) (drop m l).
Proof.
  destruct (decide (m ≤ n)%nat) as [Hle|Hgt].
  - rewrite take_drop_commute. do 2 f_equal. lia.
  - replace (n - m) with 0 by lia. rewrite take_0.
    apply drop_ge. rewrite length_take. lia.
Qed.

Section Slices.
Context {A : Type}.
Implicit Types (rows : list (list A)).

Lemma crop_nonneg rows (top left height width : Z) :
  (0 ≤ top)%Z → (0 ≤ left)%Z → (0 ≤ height)%Z → (0 ≤ width)%Z →
  crop rows top left height width
  = (λ row, take (Z.to_nat width) (drop (Z.to_nat left) row))
    <$> take (Z.to_nat height) (drop (Z.to_nat top) rows).
Proof.
  intros. unfold crop. rewrite py_slice_nonneg by done.
  apply list_fmap_ext. intros i row _. by apply py_slice_nonneg.
Qed.

(** X14.  A crop window that lies inside the image gives exactly the
    requested size, and element [(i, j)] of the result is element
    [(top + i, left + j)] of the image. *)
Theorem crop_window_inside rows (top left height width : nat) (w : nat) :
  Forall (λ row, length row = w) rows →
  (top + height ≤ length rows)%nat → (left + width ≤ w)%nat →
  let r := crop rows (Z.of_nat top) (Z.of_nat left)
             (Z.of_nat height) (Z.of_nat width) in
  length r = height ∧
  Forall (λ row, length row = width) r ∧
  ∀ i j, (i < height)%nat → (j < width)%nat →
    r !! i ≫= (.!! j) = rows !! (top + i)%nat ≫= (.!! (left + j)%nat).
Proof.
  intros Hw Hh Hl r. subst r. rewrite crop_nonneg by lia. rewrite !Nat2Z.id.
  split_and!.
  - rewrite length_fmap, length_take, length_drop. lia.
  - apply Forall_fmap, Forall_take, Forall_drop.
    eapply Forall_impl; [|exact Hw]. intros row Hrow. simpl in *.
    rewrite length_take, length_drop. lia.
  - intros i j Hi Hj.
    rewrite list_lookup_fmap, lookup_take_lt, lookup_drop by done.
    destruct (rows !! (top + i)%nat) as [row|]; [|done]. simpl.
    by rewrite lookup_take_lt, lookup_drop.
Qed.

(** X15.  Crops compose: cropping a crop is one crop whose offsets add
    up and whose sizes are cut to what the first crop left. *)
Theorem crop_of_crop rows (t1 l1 h1 w1 t2 l2 h2 w2 : nat) :
  crop (crop rows (Z.of_nat t1) (Z.of_nat l1) (Z.of_nat h1) (Z.of_nat w1))
       (Z.of_nat t2) (Z.of_nat l2) (Z.of_nat h2) (Z.of_nat w2)
  = crop rows (Z.of_nat (t1 + t2)) (Z.of_nat (l1 + l2))
         (Z.of_nat (h2 `min` (h1 - t2))) (Z.of_nat (w2 `min` (w1 - l2))).
Proof.
  rewrite !crop_nonneg by lia. rewrite !Nat2Z.id.
  rewrite <-fmap_drop, <-fmap_take, <-list_fmap_compose.
  rewrite drop_of_take, take_take, drop_drop.
  apply list_fmap_ext. intros i row _. simpl.
  by rewrite drop_of_take, take_take, drop_drop.
Qed.

End Slices.

(** X16.  The kernel [gaussianblur] hands to torchvision has, in each
    direction, the least odd size that is at least [ceil(6 sigma)]; a
    scalar sigma gives a square kernel. *)
Theorem gaussianblur_kernel_least_odd {float image : Type}
    (ceil_times_6 : float → Z)
    (gaussian_blur : image → list Z → float * float → image)
    (tensor : image) (sigma : sigma_arg (float:=float)) :
  let s := match sigma with
           | ScalarSigma s => (s, s)
           | PairSigma s0 s1 => (s0, s1)
           end in
  let k0 := gaussian_kernel_size (ceil_times_6 s.1) in
  let k1 := gaussian_kernel_size (ceil_times_6 s.2) in
  gaussianblur ceil_times_6 gaussian_blur tensor sigma
  = gaussian_blur tensor [k0; k1] s ∧
  (k0 `mod` 2 = 1 ∧ k1 `mod` 2 = 1)%Z ∧
  (ceil_times_6 s.1 ≤ k0 ∧ ceil_times_6 s.2 ≤ k1)%Z ∧
  (∀ k, (ceil_times_6 s.1 ≤ k → k `mod` 2 = 1 → k0 ≤ k)%Z) ∧
  (∀ k, (ceil_times_6 s.2 ≤ k → k `mod` 2 = 1 → k1 ≤ k)%Z).
Proof.
  intros s k0 k1. subst k0 k1. unfold gaussian_kernel_size.
  split; [by destruct sigma|].
  assert (Hodd : ∀ c : Z, ((c - c `mod` 2 + 1) `mod` 2 = 1)%Z).
  { intros c. pose proof (Z.mod_pos_bound c 2 ltac:(lia)).
    rewrite (Z.div_mod c 2) at 1 by lia.
    replace (2 * (c `div` 2) + c `mod` 2 - c `mod` 2 + 1)%Z
      with (1 + (c `div` 2) * 2)%Z by lia.
    by rewrite Z.mod_add by lia. }
  assert (Hmin : ∀ c k : Z, (c ≤ k → k `mod` 2 = 1 → c - c `mod` 2 + 1 ≤ k)%Z).
  { intros c k Hck Hk. pose proof (Z.mod_pos_bound c 2 ltac:(lia)).
    destruct (decide (c `mod` 2 = 1)%Z) as [Hc|Hc]; [lia|].
    assert (c ≠ k) by (intros ->; lia). lia. }
  split_and!; try apply Hodd; try apply Hmin.
  - pose proof (Z.mod_pos_bound (ceil_times_6 s.1) 2 ltac:(lia)). lia.
  - pose proof (Z.mod_pos_bound (ceil_times_6 s.2) 2 ltac:(lia)). lia.
Qed.

(** ** images.py: [channelmap] *)

Section ChannelMap.
Context {plane : Type} `{Inhabited plane}.
Variables (zeros_like ones_like : plane → plane).
Implicit Types (t : bchw (plane:=plane)) (im : list plane).

Lemma code_at_succ i c rest j :
  j ≠ i → code_at i (c :: rest) j = code_at (S i) rest j.
Proof.
  intros Hne. unfold code_at.
  destruct (Nat.ltb_spec j i) as [Hlt|Hge].
  - by rewrite (proj2 (Nat.ltb_lt j (S i))) by lia.
  - rewrite (proj2 (Nat.ltb_ge j (S i))) by lia.
    replace (j - i) with (S (j - S i)) by lia. done.
Qed.

Lemma code_at_here i c rest : code_at i (c :: rest) i = Some c.
Proof.
  unfold code_at. rewrite Nat.ltb_irrefl. by rewrite Nat.sub_diag.
Qed.

Lemma code_at_before i cs j : j < i → code_at i cs j = None.
Proof. intros Hlt. unfold code_at. by rewrite (proj2 (Nat.ltb_lt j i)). Qed.

(** One step of the loop, on one image. *)
Lemma filled_plane_step f i c rest (im0 : list plane) im :
  i < length im →
  (∀ j p, filled_plane zeros_like ones_like i (c :: rest) im0 j p
          = if decide (j = i) then f (im0 !!! i)
            else filled_plane zeros_like ones_like (S i) rest im0 j p) →
  imap (filled_plane zeros_like ones_like (S i) rest (<[i := f (im0 !!! i)]> im0))
       (<[i := f (im0 !!! i)]> im)
  = imap (filled_plane zeros_like ones_like i (c :: rest) im0) im.
Proof.
  intros Hi Hstep. apply list_eq. intros j.
  rewrite !list_lookup_imap.
  destruct (decide (j = i)) as [->|Hne].
  - rewrite list_lookup_insert_eq by done.
    destruct (im !! i) as [p|] eqn:Hp; [|by apply lookup_ge_None in Hp; lia].
    simpl. f_equal. rewrite Hstep, decide_True by done.
    unfold filled_plane. by rewrite code_at_before by lia.
  - rewrite list_lookup_insert_ne by done.
    destruct (im !! j) as [p|]; [|done]. simpl. f_equal.
    rewrite Hstep, decide_False by done.
    unfold filled_plane. destruct (code_at (S i) rest j) as [[|[|[|[|[|[|?]]]]]]|];
      try done; by rewrite list_lookup_total_insert_ne.
Qed.

Lemma filled_plane_keep i c rest (im0 : list plane) j p :
  c ≠ 4 → c ≠ 5 →
  filled_plane zeros_like ones_like i (c :: rest) im0 j p
  = filled_plane zeros_like ones_like (S i) rest im0 j p.
Proof.
  intros H4 H5. unfold filled_plane.
  destruct (decide (j = i)) as [->|Hne].
  - rewrite code_at_here, code_at_before by lia.
    by destruct c as [|[|[|[|[|[|?]]]]]].
  - by rewrite code_at_succ.
Qed.

(** The loop of [channelmap] in closed form. *)
Lemma channelmap_fill_spec i cs t :
  bchw_wf t → (i + length cs ≤ n_channels t)%nat →
  (images t = [] → Forall (λ c, c ≠ 4 ∧ c ≠ 5) cs) →
  channelmap_fill zeros_like ones_like i cs t
  = Return (BCHW (n_channels t)
      (imap (filled_plane zeros_like ones_like i cs
               (default [] (head (images t)))) <$> images t)).
Proof.
  revert i t. induction cs as [|c rest IH]; intros i t Hwf Hlen Hbatch.
  - simpl. f_equal. destruct t as [n ims]. f_equal. simpl.
    rewrite <-(list_fmap_id ims) at 1. apply list_fmap_ext.
    intros b im _. simpl. apply list_eq. intros j.
    rewrite list_lookup_imap. destruct (im !! j); [|done]. simpl. f_equal.
    unfold filled_plane, code_at. destruct (Nat.ltb j i); [done|].
    by rewrite lookup_nil.
  - cbn [channelmap_fill length] in *.
    assert (Hfill : ∀ f, (c = 4 ∧ f = zeros_like) ∨ (c = 5 ∧ f = ones_like) →
      match fill_channel f i t with
      | Return t' => channelmap_fill zeros_like ones_like (S i) rest t'
      | Raise e => Raise e
      end
      = Return (BCHW (n_channels t)
          (imap (filled_plane zeros_like ones_like i (c :: rest)
                   (default [] (head (images t)))) <$> images t))).
    { intros f Hf. destruct t as [n ims0]. cbn [n_channels images] in *.
      destruct ims0 as [|im0 ims].
      { specialize (Hbatch eq_refl). apply Forall_cons_1 in Hbatch as [[? ?] _].
        destruct Hf as [[? _]|[? _]]; done. }
      unfold bchw_wf in Hwf. cbn [n_channels images] in Hwf.
      unfold fill_channel. cbn [n_channels images].
      rewrite (proj2 (Nat.ltb_lt i n)) by lia.
      assert (Hstep : ∀ j p,
        filled_plane zeros_like ones_like i (c :: rest) im0 j p
        = if decide (j = i) then f (im0 !!! i)
          else filled_plane zeros_like ones_like (S i) rest im0 j p).
      { intros j p. unfold filled_plane.
        destruct (decide (j = i)) as [->|Hne].
        - rewrite code_at_here. by destruct Hf as [[-> ->]|[-> ->]].
        - by rewrite code_at_succ. }
      rewrite IH.
      - change (Return (BCHW n
                  (imap (filled_plane zeros_like ones_like (S i) rest
                           (<[i := f (im0 !!! i)]> im0))
                   <$> ((λ im, <[i := f (im0 !!! i)]> im) <$> (im0 :: ims))))
                = Return (BCHW n
                    (imap (filled_plane zeros_like ones_like i (c :: rest) im0)
                     <$> (im0 :: ims)))).
        f_equal. f_equal. rewrite <-list_fmap_compose.
        apply Forall_fmap_ext_1.
        eapply Forall_impl; [|exact Hwf]. intros im Him. simpl in Him |- *.
        apply filled_plane_step; [lia|done].
      - unfold bchw_wf. cbn [n_channels images].
        apply Forall_fmap. eapply Forall_impl; [|exact Hwf].
        intros im Him. simpl in Him |- *. by rewrite length_insert.
      - cbn [n_channels]. lia.
      - done. }
    destruct (decide (c = 4)) as [H4|H4]; [by apply Hfill; left|].
    destruct (decide (c = 5)) as [H5|H5]; [by apply Hfill; right|].
    rewrite IH; [|done|lia|].
    + f_equal. f_equal. apply list_fmap_ext. intros b im _.
      apply imap_ext. intros j p _. by rewrite filled_plane_keep.
    + intros Hnil. specialize (Hbatch Hnil).
      by apply Forall_cons_1 in Hbatch as [_ ?].
Qed.

Lemma index_channels_copies t (outchannels : list nat) :
  (outchannels = [] ∨ 1 ≤ n_channels t)%nat →
  index_channels
    ((λ x, if Nat.ltb x (n_channels t) then x else 0) <$> outchannels) t
  = Return (BCHW (length outchannels)
      ((λ im, (λ c, im !!! (if Nat.ltb c (n_channels t) then c else 0))
              <$> outchannels) <$> images t)).
Proof.
  intros Hc. unfold index_channels.
  assert (forallb (λ i, Nat.ltb i (n_channels t))
            ((λ x, if Nat.ltb x (n_channels t) then x else 0) <$> outchannels)
          = true) as ->.
  { apply forallb_forall. intros i Hi.
    apply list_elem_of_In, list_elem_of_fmap in Hi as (c & -> & Hcin).
    destruct Hc as [->|Hpos]; [by apply elem_of_nil in Hcin|].
    destruct (Nat.ltb_spec c (n_channels t)); apply Nat.ltb_lt; lia. }
  rewrite length_fmap. do 2 f_equal.
  apply list_fmap_ext. intros b im _. by rewrite <-list_fmap_compose.
Qed.

(** X17.  [channelmap] keeps the batch and builds one output channel per
    requested code other than 6, in the order asked: code 4 gives a plane
    of zeros, code 5 a plane of ones, a code below the number of channels
    gives that channel of the same image, and any other code gives
    channel 0.  (An empty batch is fine as long as no code is 4 or 5.) *)
Theorem channelmap_channels t (srcchannels : list nat) :
  bchw_wf t → (1 ≤ n_channels t)%nat →
  (images t = [] → Forall (λ c, c ≠ 4 ∧ c ≠ 5) srcchannels) →
  let outchannels := filter (λ x, x ≠ 6) srcchannels in
  let im0 := default [] (head (images t)) in
  channelmap zeros_like ones_like t srcchannels
  = Return (BCHW (length outchannels)
      ((λ im, mapped_plane zeros_like ones_like im0 im (n_channels t)
              <$> outchannels) <$> images t)).
Proof.
  intros Hwf Hpos Hbatch outchannels im0. unfold channelmap.
  fold outchannels. rewrite index_channels_copies by (by right).
  set (sel := λ im : list plane,
         (λ c, im !!! (if Nat.ltb c (n_channels t) then c else 0))
         <$> outchannels).
  rewrite channelmap_fill_spec; cbn [n_channels images].
  - do 2 f_equal. rewrite <-list_fmap_compose.
    apply list_fmap_ext. intros b im Hb. simpl.
    assert (Him0 : default [] (head (sel <$> images t)) = sel im0).
    { subst im0. destruct (images t); [done|]. done. }
    rewrite Him0. apply list_eq. intros j.
    rewrite list_lookup_imap. unfold sel at 2. rewrite !list_lookup_fmap.
    destruct (outchannels !! j) as [c|] eqn:Hj; [|done]. simpl. f_equal.
    unfold filled_plane, code_at, mapped_plane. simpl.
    rewrite Nat.sub_0_r, Hj.
    assert (Hsel : sel im0 !!! j
                   = im0 !!! (if Nat.ltb c (n_channels t) then c else 0)).
    { apply list_lookup_total_correct. unfold sel.
      by rewrite list_lookup_fmap, Hj. }
    rewrite Hsel.
    destruct (decide (c = 4)) as [->|H4]; [done|].
    destruct (decide (c = 5)) as [->|H5]; [done|].
    by destruct c as [|[|[|[|[|[|?]]]]]].
  - unfold bchw_wf. cbn [n_channels images]. apply Forall_fmap, Forall_true.
    intros im. simpl. unfold sel. by rewrite length_fmap.
  - lia.
  - intros Hnil. apply fmap_nil_inv in Hnil.
    specialize (Hbatch Hnil). subst outchannels.
    apply Forall_forall. intros c Hc. rewrite Forall_forall in Hbatch.
    apply Hbatch. apply list_elem_of_In in Hc.
    apply list_elem_of_filter in Hc as [_ Hc]. by apply list_elem_of_In.
Qed.

Lemma channelmap_fill_empty_batch i cs n :
  channelmap_fill zeros_like ones_like i cs (BCHW n [])
  = if decide (Forall (λ c, c ≠ 4 ∧ c ≠ 5) cs)
    then Return (BCHW n []) else Raise IndexError.
Proof.
  revert i. induction cs as [|c rest IH]; intros i.
  - by rewrite decide_True by constructor.
  - cbn [channelmap_fill].
    destruct (decide (c = 4)) as [->|H4].
    { rewrite decide_False; [done|]. by intros [[? _] _]%Forall_cons_1. }
    destruct (decide (c = 5)) as [->|H5].
    { rewrite decide_False; [done|]. by intros [[_ ?] _]%Forall_cons_1. }
    rewrite IH. destruct (decide (Forall _ rest)) as [Hall|Hnot].
    + by rewrite decide_True by (by constructor).
    + rewrite decide_False; [done|]. by intros [_ ?]%Forall_cons_1.
Qed.

(** X18.  [channelmap] raises [IndexError] on a tensor without channels
    as soon as one channel is asked for, and on an empty batch as soon as
    a channel of zeros or ones (code 4 or 5) is asked for, since the loop
    reads [tensor[0]]. *)
Theorem channelmap_index_errors t (srcchannels : list nat) :
  (n_channels t = 0 → filter (λ x, x ≠ 6) srcchannels ≠ [] →
   channelmap zeros_like ones_like t srcchannels = Raise IndexError) ∧
  (images t = [] → (1 ≤ n_channels t)%nat →
   ¬ Forall (λ c, c ≠ 4 ∧ c ≠ 5) srcchannels →
   channelmap zeros_like ones_like t srcchannels = Raise IndexError).
Proof.
  split.
  - intros HC Hout. unfold channelmap, index_channels. rewrite HC.
    destruct (filter _ srcchannels) as [|c out]; [done|]. done.
  - intros Hnil Hpos Hcodes. unfold channelmap.
    rewrite index_channels_copies by (by right). rewrite Hnil. simpl.
    rewrite channelmap_fill_empty_batch. rewrite decide_False; [done|].
    intros Hall. apply Hcodes. apply Forall_forall. intros c Hc.
    destruct (decide (c = 6)) as [->|H6]; [done|].
    rewrite Forall_forall in Hall. apply Hall.
    apply list_elem_of_In, list_elem_of_filter. split; [done|].
    by apply list_elem_of_In.
Qed.

(** X19.  Asking for the channels in their own order gives the tensor
    back, for up to four channels; from five channels on it does not,
    because code 4 then means zeros and not channel 4. *)
Theorem channelmap_identity t :
  bchw_wf t → (n_channels t ≤ 4)%nat →
  channelmap zeros_like ones_like t (seq 0 (n_channels t)) = Return t.
Proof.
  intros Hwf Hle. destruct t as [n ims]. cbn [n_channels] in *.
  unfold bchw_wf in Hwf. cbn [n_channels images] in Hwf.
  assert (Hcodes : Forall (λ c, c ≠ 4 ∧ c ≠ 5 ∧ c ≠ 6) (seq 0 n)).
  { apply Forall_forall. intros c Hc. apply in_seq in Hc. lia. }
  assert (Hout : filter (λ x, x ≠ 6) (seq 0 n) = seq 0 n).
  { clear -Hcodes. induction Hcodes as [|c l Hc _ IH]; [done|].
    rewrite filter_cons, decide_True by lia. by rewrite IH. }
  destruct (decide (n = 0)) as [->|Hn].
  - unfold channelmap, index_channels. simpl. do 2 f_equal.
    rewrite <-(list_fmap_id ims) at 2. apply Forall_fmap_ext_1.
    eapply Forall_impl; [|exact Hwf]. intros im Him. simpl in Him |- *.
    by destruct im.
  - rewrite channelmap_channels; cbn [n_channels images].
    + rewrite Hout, length_seq. do 2 f_equal.
      rewrite <-(list_fmap_id ims) at 2. apply Forall_fmap_ext_1.
      eapply Forall_impl; [|exact Hwf]. intros im Him. simpl in Him |- *.
      apply list_eq. intros j. rewrite list_lookup_fmap.
      destruct (decide (j < n)%nat) as [Hj|Hj].
      * rewrite lookup_seq_lt by done. simpl.
        unfold mapped_plane. rewrite (proj2 (Nat.ltb_lt j n)) by done.
        rewrite decide_False by lia. rewrite decide_False by lia.
        symmetry. apply list_lookup_lookup_total_lt. lia.
      * rewrite lookup_seq_ge by lia. simpl. symmetry.
        apply lookup_ge_None. lia.
    + done.
    + lia.
    + intros _. eapply Forall_impl; [|exact Hcodes]. intros c Hc.
      simpl in Hc. lia.
Qed.

End ChannelMap.

(** ** The statements about images at concrete inputs *)

Module ImageExamples.
Import Pictures.

Lemma crop_window_inside_witness :
  length (crop grid 1 1 2 3) = 2.
Proof.
  refine (proj1 (crop_window_inside grid 1 1 2 3 4 _ _ _)).
  - by repeat constructor.
  - simpl. lia.
  - lia.
Defined.

Example crop_run :
  crop grid 1 1 2 3 = [[11; 12; 13]; [21; 22; 23]] ∧
  crop grid 2 3 5 5 = [[23]] ∧
  crop grid (-1) 0 2 4 = [].
Proof. by vm_compute. Qed.

Lemma channelmap_channels_witness :
  channelmap zeros ones rgb2 [2; 6; 4; 5; 0; 3]
  = Return (BCHW 5 [[12; 0; 1; 10; 10]; [22; 0; 1; 20; 20]]).
Proof.
  refine (channelmap_channels zeros ones rgb2 [2; 6; 4; 5; 0; 3] _ _ _).
  - by repeat constructor.
  - simpl. lia.
  - discriminate.
Defined.

Lemma channelmap_index_errors_witness :
  channelmap zeros ones no_channels [0] = Raise IndexError ∧
  channelmap zeros ones empty_batch [0; 4] = Raise IndexError.
Proof.
  destruct (channelmap_index_errors zeros ones no_channels [0]) as [H0 _].
  destruct (channelmap_index_errors zeros ones empty_batch [0; 4]) as [_ H1].
  split.
  - apply H0; [reflexivity|discriminate].
  - apply H1; [reflexivity|simpl; lia|].
    intros Hall. inversion Hall as [|? ? _ Hrest]; subst.
    inversion Hrest as [|? ? [Hfour _] _]; subst. by apply Hfour.
Defined.

Lemma channelmap_identity_witness :
  channelmap zeros ones rgb2 (seq 0 3) = Return rgb2.
Proof.
  refine (channelmap_identity zeros ones rgb2 _ _).
  - by repeat constructor.
  - simpl. lia.
Defined.

(** With five channels the fifth comes back as zeros. *)
Example channelmap_five_channels :
  channelmap zeros ones five (seq 0 5) = Return (BCHW 5 [[10; 11; 12; 13; 0]]).
Proof. reflexivity. Qed.

End ImageExamples.

(** ** images.py: [normalise_tensor] and the channel order of [toCV] *)

Section NormaliseFacts.
Context {plane : Type} `{Inhabited plane}.
Variable concat_alpha : bchw (plane:=plane) → outcome (bchw (plane:=plane)).
Implicit Types (t : bchw (plane:=plane)) (tensor : image_arg (plane:=plane)).

Lemma index_channels_in_range idx t :
  Forall (λ i, i < n_channels t) idx →
  index_channels idx t
  = Return (BCHW (length idx) ((λ im, (λ i, im !!! i) <$> idx) <$> images t)).
Proof using Type.
  intros Hidx. unfold index_channels.
  assert (forallb (λ i, Nat.ltb i (n_channels t)) idx = true) as ->; [|done].
  apply forallb_forall. intros i Hi. apply Nat.ltb_lt.
  rewrite Forall_forall in Hidx. by apply Hidx.
Qed.

Lemma index_channels_out_of_range idx t i :
  i ∈ idx → (n_channels t ≤ i)%nat → index_channels idx t = Raise IndexError.
Proof using Type.
  intros Hi Hge. unfold index_channels.
  destruct (forallb _ idx) eqn:Hall; [|done].
  rewrite forallb_forall in Hall. apply list_elem_of_In in Hi.
  apply Hall, Nat.ltb_lt in Hi. lia.
Qed.

(** X20.  [normalise_tensor] returns exactly the number of channels asked
    for when that is 1 or 3 (or 4 from a tensor with at least four): one
    channel is channel 0, three channels are the first three, or channel 0
    three times when the tensor has fewer than three (a second channel is
    dropped).  Any other number raises [ValueError] whatever the tensor,
    and a tensor without channels raises [IndexError]. *)
Theorem normalise_tensor_channels tensor (channels : Z) :
  let t := as_bchw tensor in
  (channels ≠ 1%Z → channels ≠ 3%Z → channels ≠ 4%Z →
   normalise_tensor concat_alpha tensor channels
   = Raise (ValueError ("Unknown number of channels " +:+ pretty channels))) ∧
  ((1 ≤ n_channels t)%nat →
   normalise_tensor concat_alpha tensor 1
   = Return (BCHW 1 ((λ im, [im !!! 0]) <$> images t))) ∧
  ((3 ≤ n_channels t)%nat →
   normalise_tensor concat_alpha tensor 3
   = Return (BCHW 3 ((λ im, [im !!! 0; im !!! 1; im !!! 2]) <$> images t))) ∧
  ((1 ≤ n_channels t < 3)%nat →
   normalise_tensor concat_alpha tensor 3
   = Return (BCHW 3 ((λ im, [im !!! 0; im !!! 0; im !!! 0]) <$> images t))) ∧
  ((4 ≤ n_channels t)%nat →
   normalise_tensor concat_alpha tensor 4
   = Return (BCHW 4
       ((λ im, [im !!! 0; im !!! 1; im !!! 2; im !!! 3]) <$> images t))) ∧
  (n_channels t = 0 →
   normalise_tensor concat_alpha tensor 1 = Raise IndexError ∧
   normalise_tensor concat_alpha tensor 3 = Raise IndexError ∧
   normalise_tensor concat_alpha tensor 4 = Raise IndexError).
Proof.
  intros t. unfold normalise_tensor. fold t. split_and!.
  - intros H1 H3 H4. by rewrite !decide_False by done.
  - intros HC. rewrite decide_True by done.
    rewrite index_channels_in_range; [done|]. repeat constructor. lia.
  - intros HC. rewrite decide_False by done. rewrite decide_True by done.
    unfold normalise_rgb. rewrite (proj2 (Nat.leb_le 3 _)) by done.
    rewrite index_channels_in_range; [done|]. repeat constructor; lia.
  - intros HC. rewrite decide_False by done. rewrite decide_True by done.
    unfold normalise_rgb. rewrite (proj2 (Nat.leb_gt 3 _)) by lia.
    rewrite index_channels_in_range; [done|]. repeat constructor; lia.
  - intros HC. rewrite !decide_False by done. rewrite decide_True by done.
    rewrite (proj2 (Nat.leb_le 4 _)) by done.
    rewrite index_channels_in_range; [done|]. repeat constructor; lia.
  - intros HC. split_and!.
    + rewrite decide_True by done.
      apply (index_channels_out_of_range _ _ 0); [set_solver|lia].
    + rewrite decide_False by done. rewrite decide_True by done.
      unfold normalise_rgb. rewrite (proj2 (Nat.leb_gt 3 _)) by lia.
      apply (index_channels_out_of_range _ _ 0); [set_solver|lia].
    + rewrite !decide_False by done. rewrite decide_True by done.
      rewrite (proj2 (Nat.leb_gt 4 _)) by lia.
      unfold normalise_rgb. rewrite (proj2 (Nat.leb_gt 3 _)) by lia.
      by rewrite (index_channels_out_of_range _ _ 0); [|set_solver|lia].
Qed.

(** X21.  Normalising twice is normalising once: what [normalise_tensor]
    returns for 1 or 3 channels (or for 4 from a tensor with at least
    four) is returned unchanged when normalised again to the same
    number. *)
Theorem normalise_tensor_idempotent tensor (channels : Z) t' :
  channels = 1%Z ∨ channels = 3%Z ∨
    (channels = 4%Z ∧ (4 ≤ n_channels (as_bchw tensor))%nat) →
  normalise_tensor concat_alpha tensor channels = Return t' →
  normalise_tensor concat_alpha (Bchw t') channels = Return t'.
Proof.
  intros Hch Hret.
  pose proof (normalise_tensor_channels tensor channels)
    as (_ & H1 & H3 & H3' & H4 & H0).
  pose proof (normalise_tensor_channels (Bchw t') channels)
    as (_ & K1 & K3 & _ & K4 & _).
  cbn zeta in *. cbn [as_bchw] in K1, K3, K4.
  destruct (decide (n_channels (as_bchw tensor) = 0)) as [HC|HC].
  { destruct (H0 HC) as (E1 & E3 & E4).
    destruct Hch as [->|[->|[-> ?]]]; congruence. }
  destruct Hch as [->|[->|[-> HC4]]].
  - rewrite H1 in Hret by lia. injection Hret as <-.
    rewrite K1 by (simpl; lia). cbn [images]. do 2 f_equal.
    rewrite <-list_fmap_compose. by apply list_fmap_ext.
  - destruct (decide (3 ≤ n_channels (as_bchw tensor))%nat) as [Hge|Hlt].
    + rewrite H3 in Hret by done. injection Hret as <-.
      rewrite K3 by (simpl; lia). cbn [images]. do 2 f_equal.
      rewrite <-list_fmap_compose. by apply list_fmap_ext.
    + rewrite H3' in Hret by lia. injection Hret as <-.
      rewrite K3 by (simpl; lia). cbn [images]. do 2 f_equal.
      rewrite <-list_fmap_compose. by apply list_fmap_ext.
  - rewrite H4 in Hret by done. injection Hret as <-.
    rewrite K4 by (simpl; lia). cbn [images]. do 2 f_equal.
    rewrite <-list_fmap_compose. by apply list_fmap_ext.
Qed.

(** X22.  The channel order [toCV] applies swaps red and blue and keeps
    green and alpha: on a well-formed tensor with three or four channels
    it succeeds and applying it twice gives the tensor back.  With one or
    two channels the index list asks for channel 2 and the indexing
    raises [IndexError]; beyond four channels only the first four are
    kept. *)
Theorem to_cv_channels_swap t :
  ((1 ≤ n_channels t < 3)%nat → to_cv_channels t = Raise IndexError) ∧
  (bchw_wf t → (n_channels t = 3 ∨ n_channels t = 4) →
   ∃ t1, to_cv_channels t = Return t1 ∧ n_channels t1 = n_channels t ∧
         to_cv_channels t1 = Return t) ∧
  ((4 ≤ n_channels t)%nat →
   to_cv_channels t
   = Return (BCHW 4
       ((λ im, [im !!! 2; im !!! 1; im !!! 0; im !!! 3]) <$> images t))).
Proof using Type.
  unfold to_cv_channels. split_and!.
  - intros HC. apply (index_channels_out_of_range _ _ 2); [|lia].
    destruct (n_channels t) as [|[|[|?]]];
      [lia|simpl; apply elem_of_cons; by left..|lia].
  - intros Hwf HC. destruct t as [n ims]. unfold bchw_wf in Hwf.
    cbn [n_channels images] in *. destruct HC as [->| ->].
    + eexists. split_and!.
      * apply index_channels_in_range. repeat constructor; simpl; lia.
      * done.
      * rewrite index_channels_in_range by (repeat constructor; simpl; lia).
        cbn [images length n_channels take]. do 2 f_equal.
        rewrite <-list_fmap_compose. rewrite <-(list_fmap_id ims) at 2.
        apply Forall_fmap_ext_1. eapply Forall_impl; [|exact Hwf].
        intros im Him. simpl in Him |- *.
        by destruct im as [|a [|b [|c [|? ?]]]].
    + eexists. split_and!.
      * apply index_channels_in_range. repeat constructor; simpl; lia.
      * done.
      * rewrite index_channels_in_range by (repeat constructor; simpl; lia).
        cbn [images length n_channels take]. do 2 f_equal.
        rewrite <-list_fmap_compose. rewrite <-(list_fmap_id ims) at 2.
        apply Forall_fmap_ext_1. eapply Forall_impl; [|exact Hwf].
        intros im Him. simpl in Him |- *.
        by destruct im as [|a [|b [|c [|d [|? ?]]]]].
  - intros HC.
    assert (take (n_channels t) [2; 1; 0; 3] = [2; 1; 0; 3]) as ->.
    { apply take_ge. simpl. lia. }
    rewrite index_channels_in_range; [done|]. repeat constructor; lia.
Qed.

End NormaliseFacts.

Module MoreImageExamples.
Import Pictures.

Lemma normalise_tensor_channels_witness :
  normalise_tensor add_alpha (Chw [7; 8]) 3 = Return (BCHW 3 [[7; 7; 7]]) ∧
  normalise_tensor add_alpha (Bchw rgb2) 2
  = Raise (ValueError "Unknown number of channels 2").
Proof.
  pose proof (normalise_tensor_channels add_alpha (Chw [7; 8]) 3)
    as (_ & _ & _ & H3 & _).
  pose proof (normalise_tensor_channels add_alpha (Bchw rgb2) 2)
    as (Herr & _).
  split.
  - apply H3. simpl. lia.
  - by apply Herr.
Defined.

Lemma normalise_tensor_idempotent_witness :
  normalise_tensor add_alpha (Bchw (BCHW 3 [[7; 7; 7]])) 3
  = Return (BCHW 3 [[7; 7; 7]]).
Proof.
  refine (normalise_tensor_idempotent add_alpha (Chw [7; 8]) 3 _ _ eq_refl).
  right. by left.
Defined.

Lemma to_cv_channels_swap_witness :
  to_cv_channels (BCHW 1 [[5]]) = Raise IndexError ∧
  ∃ t1, to_cv_channels rgb2 = Return t1 ∧ to_cv_channels t1 = Return rgb2.
Proof.
  pose proof (to_cv_channels_swap (BCHW 1 [[5]])) as (Herr & _).
  pose proof (to_cv_channels_swap rgb2) as (_ & Hswap & _).
  split.
  - apply Herr. simpl. lia.
  - destruct Hswap as (t1 & H1 & _ & H2).
    + by repeat constructor.
    + by left.
    + by exists t1.
Defined.

Example to_cv_channels_run :
  to_cv_channels rgb2 = Return (BCHW 3 [[12; 11; 10]; [22; 21; 20]]) ∧
  to_cv_channels five = Return (BCHW 4 [[12; 11; 10; 13]]).
Proof. split; reflexivity. Qed.

End MoreImageExamples.

(** ** text_embedding.py *)

Section RepeatFacts.
Context {row : Type}.
Implicit Types (e : TextEmbedding.embedding (row:=row)).

Lemma chunks_go_concat {A} (n fuel : nat) (ls : list (list A)) :
  (0 < n)%nat → Forall (λ l, length l = n) ls → (length ls ≤ fuel)%nat →
  chunks_go fuel n (concat ls) = ls.
Proof.
  intros Hn Hall. revert fuel.
  induction Hall as [|l ls Hl Hall IH]; intros fuel Hfuel.
  - by destruct fuel.
  - destruct fuel as [|fuel]; [simpl in Hfuel; lia|].
    simpl. destruct l as [|x l]; [simpl in Hl; lia|].
    rewrite <-app_comm_cons.
    change (x :: l ++ concat ls) with ((x :: l) ++ concat ls).
    rewrite take_app_length', drop_app_length' by done.
    rewrite IH; [done|]. simpl in Hfuel. lia.
Qed.

Lemma chunks_concat {A} (n : nat) (ls : list (list A)) :
  (0 < n)%nat → Forall (λ l, length l = n) ls → chunks n (concat ls) = ls.
Proof.
  intros Hn Hall. unfold chunks. apply chunks_go_concat; [done..|].
  rewrite length_concat. clear -Hn Hall.
  induction Hall as [|l ls Hl Hall IH]; [done|]. simpl in *. lia.
Qed.

Lemma concat_fmap_concat {A} (f : list A → list (list A)) (ls : list (list A)) :
  concat ((λ l, concat (f l)) <$> ls) = concat (concat (f <$> ls)).
Proof.
  induction ls as [|l ls IH]; [done|].
  rewrite !fmap_cons. simpl. by rewrite concat_app, IH.
Qed.

(** X23.  [repeat] makes [count] consecutive copies of each prompt's
    embedding: prompt [i] of the input is entries [i * count] to
    [i * count + count - 1] of the result, whose batch size is
    [bs * count].  It needs a non-empty batch, [count >= 1] and a
    non-empty sequence; otherwise the view cannot infer its last size and
    raises. *)
Theorem repeat_copies_each_prompt e (count : nat) :
  TextEmbedding.embedding_wf e →
  let bs := length (TextEmbedding.emb_data e) in
  ((1 ≤ bs)%nat → (1 ≤ count)%nat → (1 ≤ TextEmbedding.seq_len e)%nat →
   ∃ e', TextEmbedding.repeat e count = Return e' ∧
     TextEmbedding.seq_len e' = TextEmbedding.seq_len e ∧
     TextEmbedding.emb_data e'
     = concat (replicate count <$> TextEmbedding.emb_data e) ∧
     length (TextEmbedding.emb_data e') = (bs * count)%nat ∧
     TextEmbedding.embedding_wf e' ∧
     ∀ i j, (j < count)%nat →
       TextEmbedding.emb_data e' !! (i * count + j)%nat
       = TextEmbedding.emb_data e !! i) ∧
  ((bs = 0 ∨ count = 0 ∨ TextEmbedding.seq_len e = 0) →
   ∃ msg, TextEmbedding.repeat e count = Raise (RuntimeError msg)).
Proof.
  intros Hwf bs. split.
  - intros Hbs Hcount Hseq. unfold TextEmbedding.repeat. fold bs.
    rewrite decide_False by nia.
    assert (Hall : Forall (λ l, length l = TextEmbedding.seq_len e)
                     (concat (replicate count <$> TextEmbedding.emb_data e))).
    { apply Forall_concat, Forall_fmap.
      eapply Forall_impl; [|exact Hwf]. intros rows Hrows. simpl in *.
      by apply Forall_replicate. }
    eexists. split; [done|]. cbn [TextEmbedding.seq_len TextEmbedding.emb_data].
    assert (Hdata : chunks (TextEmbedding.seq_len e)
               (concat ((λ rows, concat (replicate count rows))
                        <$> TextEmbedding.emb_data e))
             = concat (replicate count <$> TextEmbedding.emb_data e)).
    { rewrite concat_fmap_concat. by apply chunks_concat. }
    rewrite Hdata. split_and!; try done.
    + rewrite length_concat. subst bs. clear.
      induction (TextEmbedding.emb_data e) as [|rows l IH]; [done|].
      rewrite fmap_cons. simpl. rewrite length_replicate, IH. lia.
    + intros i j Hj. clear -Hj. revert i.
      induction (TextEmbedding.emb_data e) as [|rows l IH]; intros i.
      * simpl. by rewrite !lookup_nil.
      * rewrite fmap_cons. simpl. destruct i as [|i].
        -- simpl. rewrite lookup_app_l by (by rewrite length_replicate).
           by rewrite lookup_replicate_2.
        -- rewrite lookup_app_r by (rewrite length_replicate; simpl; lia).
           rewrite length_replicate. simpl.
           replace (count + i * count + j - count)%nat
             with (i * count + j)%nat by lia.
           apply IH.
  - intros Hzero. unfold TextEmbedding.repeat. fold bs.
    rewrite decide_True by (destruct Hzero as [H0|[H0|H0]]; rewrite H0; lia).
    by eexists.
Qed.

End RepeatFacts.

Module EmbeddingExamples.
Import Pictures.

Lemma repeat_copies_each_prompt_witness :
  ∃ e', TextEmbedding.repeat two_prompts 3 = Return e' ∧
        length (TextEmbedding.emb_data e') = 6.
Proof.
  destruct (repeat_copies_each_prompt two_prompts 3) as [Hok _].
  { by repeat constructor. }
  destruct Hok as (e' & He & _ & _ & Hlen & _); [simpl; lia..|].
  by exists e'.
Defined.

Example repeat_run :
  TextEmbedding.repeat two_prompts 2
  = Return (TextEmbedding.Embedding 2 [[1; 2]; [1; 2]; [3; 4]; [3; 4]]) ∧
  (∃ msg, TextEmbedding.repeat two_prompts 0 = Raise (RuntimeError msg)).
Proof. split; [reflexivity|by eexists]. Qed.

End EmbeddingExamples.

(** ** logging.py: captured output *)

Section StdCaptureFacts.
Context {char : Type} `{EqDecision char}.
Variables (newline cr : char) (is_boundary : char → bool).
Hypothesis newline_boundary : is_boundary newline = true.





Lemma newline_not_in_line l :
  Forall (λ c, is_boundary c = false) l → newline ∉ l.
Proof.
  intros Hl Hin. rewrite Forall_forall in Hl.
  apply list_elem_of_In, Hl in Hin. by rewrite newline_boundary in Hin.
Qed.



Hypothesis cr_not_newline : cr ≠ newline.

Lemma with_newlines_app l1 l2 :
  with_newlines newline (l1 ++ l2)
  = with_newlines newline l1 ++ with_newlines newline l2.
Proof. unfold with_newlines. by rewrite fmap_app, concat_app. Qed.

Lemma with_newlines_snoc lines l :
  with_newlines newline (lines ++ [l])
  = (with_newlines newline lines ++ l) ++ [newline].
Proof.
  rewrite with_newlines_app. unfold with_newlines at 2. simpl.
  by rewrite app_nil_r, app_assoc.
Qed.

(** Text whose only line boundary is the line feed splits into the lines
    ended by a line feed and what follows the last one. *)
Lemma splitlines_go_newline_only cur s :
  newline_only newline is_boundary s →
  Forall (λ c, is_boundary c = false) cur →
  ∃ lines rest,
    splitlines_go newline cr is_boundary cur false s
    = lines ++ match rest with [] => [] | _ :: _ => [rest] end ∧
    cur ++ s = with_newlines newline lines ++ rest ∧
    Forall (Forall (λ c, is_boundary c = false)) lines ∧
    Forall (λ c, is_boundary c = false) rest.
Proof.
  revert cur. induction s as [|c s IH]; intros cur Hs Hcur.
  - exists [], cur. split_and!; [by destruct cur|by rewrite app_nil_r|done|done].
  - apply Forall_cons_1 in Hs as [Hc Hs]. simpl.
    destruct (is_boundary c) eqn:Hb.
    + specialize (Hc eq_refl) as ->.
      rewrite (bool_decide_eq_false_2 (newline = cr)) by (by intros ->).
      destruct (IH [] Hs ltac:(constructor)) as (lines & rest & -> & Heq & Hl & Hr).
      simpl in Heq.
      exists (cur :: lines), rest. split_and!; [done| |by constructor|done].
      unfold with_newlines in *. rewrite fmap_cons. simpl.
      rewrite <-!app_assoc. simpl. by rewrite Heq.
    + destruct (IH (cur ++ [c]) Hs) as (lines & rest & -> & Heq & Hl & Hr).
      { apply Forall_app. by repeat constructor. }
      exists lines, rest. split_and!; [done| |done|done].
      by rewrite <-app_assoc in Heq.
Qed.

Lemma ends_with_newline_rest x rest :
  rest ≠ [] → Forall (λ c, is_boundary c = false) rest →
  ends_with_newline newline (x ++ rest) = false.
Proof.
  intros Hne Hrest. unfold ends_with_newline. rewrite last_app.
  destruct (list.last rest) as [c|] eqn:Hlast.
  - apply bool_decide_eq_false_2. intros ->.
    apply last_Some_elem_of in Hlast.
    by apply newline_not_in_line in Hrest.
  - by apply last_None in Hlast.
Qed.

Lemma ends_with_newline_lines lines :
  lines ≠ [] → ends_with_newline newline (with_newlines newline lines) = true.
Proof.
  intros Hne. destruct lines as [|l lines _] using rev_ind; [done|].
  rewrite with_newlines_snoc. unfold ends_with_newline.
  rewrite last_snoc. by apply bool_decide_eq_true_2.
Qed.

(** One call of [write] on text in which the line feed is the only line
    boundary. *)
Lemma write_newline_only self caller text :
  newline_only newline is_boundary (line_buffer self ++ text) →
  ∃ lines rest,
    write newline cr is_boundary self caller text
    = (Return (LogCall (default "gyre" caller) (level self) <$> lines),
       StdCaptureState (level self) rest) ∧
    with_newlines newline lines ++ rest = line_buffer self ++ text ∧
    Forall (λ l, newline ∉ l) lines ∧ (newline ∉ rest) ∧
    newline_only newline is_boundary rest.
Proof.
  intros Honly. unfold write. cbn [line_buffer level].
  set (s := line_buffer self ++ text) in *.
  destruct (decide (newline ∈ s)) as [Hin|Hnot].
  - rewrite bool_decide_eq_true_2 by done.
    destruct (splitlines_go_newline_only [] s Honly ltac:(constructor))
      as (lines & rest & Hsplit & Heq & Hl & Hr).
    simpl in Heq. fold (splitlines newline cr is_boundary s) in Hsplit.
    assert (Hlines : Forall (λ l, newline ∉ l) lines).
    { eapply Forall_impl; [|exact Hl]. intros l. apply newline_not_in_line. }
    assert (Hrest : newline_only newline is_boundary rest).
    { eapply Forall_impl; [|exact Hr]. intros c Hc Hc'. by rewrite Hc in Hc'. }
    destruct rest as [|c rest].
    + rewrite app_nil_r in Heq, Hsplit.
      assert (Hne : lines ≠ []).
      { intros ->. rewrite Heq in Hin. by apply elem_of_nil in Hin. }
      assert (Hend : ends_with_newline newline s = true).
      { rewrite Heq. by apply ends_with_newline_lines. }
      rewrite Hend.
      exists lines, []. rewrite Hsplit, app_nil_r.
      split_and!; [done|done|done|by intros ?%elem_of_nil|done].
    + assert (Hend : ends_with_newline newline s = false).
      { rewrite Heq. by apply ends_with_newline_rest. }
      rewrite Hend, Hsplit, last_snoc, removelast_last.
      exists lines, (c :: rest).
      split_and!; [done|done|done|by apply newline_not_in_line|done].
  - rewrite bool_decide_eq_false_2 by done.
    exists [], s. split_and!; [done|done|done|done|done].
Qed.

Lemma log_line_calls name lv (lines : list (list char)) :
  log_line <$> (LogCall name lv <$> lines) = lines.
Proof.
  induction lines as [|l lines IH]; [done|].
  rewrite !fmap_cons. cbn [log_line]. by rewrite IH.
Qed.

(** X27.  Text in which the line feed is the only line boundary is
    neither lost nor repeated: after a call of [write], the lines logged,
    each with its line feed, followed by the buffer, are the old buffer
    followed by the text written. *)
Theorem write_keeps_text self caller text :
  newline_only newline is_boundary (line_buffer self ++ text) →
  ∃ calls self',
    write newline cr is_boundary self caller text = (Return calls, self') ∧
    with_newlines newline (log_line <$> calls) ++ line_buffer self'
    = line_buffer self ++ text.
Proof.
  intros Honly.
  destruct (write_newline_only self caller text Honly)
    as (lines & rest & -> & Heq & _).
  eexists _, _. split; [done|]. cbn [line_buffer].
  by rewrite log_line_calls.
Qed.

(** A text splits in one way only into lines ended by a line feed and a
    rest without line feed. *)
Lemma first_newline_unique x y a b :
  newline ∉ x → newline ∉ y →
  x ++ newline :: a = y ++ newline :: b → x = y ∧ a = b.
Proof.
  revert y. induction x as [|c x IH]; intros [|d y] Hx Hy Heq.
  - by injection Heq.
  - injection Heq as <- _. exfalso. apply Hy, elem_of_cons. by left.
  - injection Heq as -> _. exfalso. apply Hx, elem_of_cons. by left.
  - injection Heq as <- Heq. apply not_elem_of_cons in Hx as [_ Hx].
    apply not_elem_of_cons in Hy as [_ Hy].
    by destruct (IH y Hx Hy Heq) as [-> ->].
Qed.

Lemma with_newlines_unique lines1 rest1 lines2 rest2 :
  Forall (λ l, newline ∉ l) lines1 → Forall (λ l, newline ∉ l) lines2 →
  newline ∉ rest1 → newline ∉ rest2 →
  with_newlines newline lines1 ++ rest1 = with_newlines newline lines2 ++ rest2 →
  lines1 = lines2 ∧ rest1 = rest2.
Proof.
  intros H1. revert lines2. induction H1 as [|l1 lines1 Hl1 H1 IH];
    intros lines2 H2 Hr1 Hr2 Heq; destruct H2 as [|l2 lines2 Hl2 H2].
  - done.
  - exfalso. apply Hr1. simpl in Heq. rewrite Heq.
    unfold with_newlines. rewrite fmap_cons. simpl.
    rewrite <-!app_assoc. apply elem_of_app. right.
    apply elem_of_cons. by left.
  - exfalso. apply Hr2. simpl in Heq. rewrite <-Heq.
    unfold with_newlines. rewrite fmap_cons. simpl.
    rewrite <-!app_assoc. apply elem_of_app. right.
    apply elem_of_cons. by left.
  - unfold with_newlines in Heq. rewrite !fmap_cons in Heq. simpl in Heq.
    rewrite <-!app_assoc in Heq. simpl in Heq.
    apply first_newline_unique in Heq as [-> Heq]; [|done..].
    by destruct (IH lines2 H2 Hr1 Hr2 Heq) as [-> ->].
Qed.

(** X28.  Writing in pieces is writing at once, for text in which the
    line feed is the only line boundary: two calls of [write] log the
    lines that one call with the two texts joined logs, and leave the
    same buffer; only the logger may differ, since each call logs under
    the module of its own caller. *)
Theorem write_in_pieces self caller1 caller2 caller text1 text2 :
  newline_only newline is_boundary (line_buffer self ++ text1 ++ text2) →
  ∃ calls1 self1 calls2 self2 calls,
    write newline cr is_boundary self caller1 text1 = (Return calls1, self1) ∧
    write newline cr is_boundary self1 caller2 text2 = (Return calls2, self2) ∧
    write newline cr is_boundary self caller (text1 ++ text2)
    = (Return calls, self2) ∧
    log_line <$> calls = log_line <$> (calls1 ++ calls2).
Proof.
  intros Honly.
  assert (Honly1 : newline_only newline is_boundary (line_buffer self ++ text1)).
  { rewrite app_assoc in Honly. by apply Forall_app in Honly as [? _]. }
  destruct (write_newline_only self caller1 text1 Honly1)
    as (lines1 & rest1 & Hw1 & Heq1 & Hl1 & Hr1 & Ho1).
  assert (Honly2 : newline_only newline is_boundary (rest1 ++ text2)).
  { apply Forall_app. split; [done|].
    by apply Forall_app in Honly as [_ [_ ?]%Forall_app]. }
  destruct (write_newline_only (StdCaptureState (level self) rest1) caller2 text2
              Honly2) as (lines2 & rest2 & Hw2 & Heq2 & Hl2 & Hr2 & _).
  cbn [line_buffer level] in Hw2, Heq2.
  destruct (write_newline_only self caller (text1 ++ text2) Honly)
    as (lines & rest & Hw & Heq & Hl & Hr & _).
  assert (Hsame : lines = lines1 ++ lines2 ∧ rest = rest2).
  { apply with_newlines_unique; [done|by apply Forall_app|done|done|].
    rewrite Heq, with_newlines_app, <-app_assoc, Heq2.
    rewrite (app_assoc (with_newlines newline lines1)), Heq1.
    by rewrite <-app_assoc. }
  destruct Hsame as [-> ->].
  eexists _, _, _, _, _. split_and!; [exact Hw1|exact Hw2|exact Hw|].
  by rewrite log_line_calls, fmap_app, !log_line_calls.
Qed.

End StdCaptureFacts.

Module CaptureExamples.
Import Latin1.

Lemma newline_is_boundary : is_boundary newline = true.
Proof. reflexivity. Defined.

Lemma cr_is_not_newline : cr ≠ newline.
Proof. discriminate. Defined.

Lemma two_lines_newline_only :
  newline_only newline is_boundary ([] ++ two_lines_and_more).
Proof. repeat constructor; by vm_compute. Defined.


Lemma write_keeps_text_witness :
  ∃ calls self',
    write stdout_capture None two_lines_and_more = (Return calls, self') ∧
    with_newlines newline (log_line <$> calls) ++ line_buffer self'
    = two_lines_and_more.
Proof.
  exact (write_keeps_text newline cr is_boundary newline_is_boundary
           cr_is_not_newline stdout_capture None two_lines_and_more
           two_lines_newline_only).
Defined.

Lemma write_in_pieces_witness :
  ∃ calls1 self1 calls2 self2 calls,
    write stdout_capture (Some "a") (text "one" ++ [newline] ++ text "tw")
    = (Return calls1, self1) ∧
    write self1 (Some "b") (text "o" ++ [newline] ++ text "thr")
    = (Return calls2, self2) ∧
    write stdout_capture None
      ((text "one" ++ [newline] ++ text "tw")
       ++ (text "o" ++ [newline] ++ text "thr"))
    = (Return calls, self2) ∧
    log_line <$> calls = log_line <$> (calls1 ++ calls2).
Proof.
  refine (write_in_pieces newline cr is_boundary newline_is_boundary
            cr_is_not_newline stdout_capture (Some "a") (Some "b") None
            (text "one" ++ [newline] ++ text "tw")
            (text "o" ++ [newline] ++ text "thr") _).
  repeat constructor; by vm_compute.
Defined.

(** [print("Skip")] writes the text and then the line feed: the line is
    logged at the second call, under the module that printed. *)
Example print_skip_run :
  write stdout_capture (Some "gyre.pipeline.randtools") (text "Skip")
  = (Return [], StdCaptureState 20 (text "Skip")) ∧
  write (StdCaptureState 20 (text "Skip")) (Some "gyre.pipeline.randtools")
        [newline]
  = (Return [LogCall "gyre.pipeline.randtools" 20 (text "Skip")],
     StdCaptureState 20 []).
Proof. split; reflexivity. Qed.

(** A carriage return with its line feed is one line break; a line break
    other than a line feed at the end of the text is dropped, and the
    line before it stays in the buffer, to be joined with what is written
    next. *)
Example carriage_return_run :
  write stdout_capture None (text "a" ++ [cr; newline] ++ text "b" ++ [cr])
  = (Return [LogCall "gyre" 20 (text "a")], StdCaptureState 20 (text "b")) ∧
  write (StdCaptureState 20 (text "b")) None (text "c" ++ [newline])
  = (Return [LogCall "gyre" 20 (text "bc")], StdCaptureState 20 []).
Proof. split; reflexivity. Qed.

End CaptureExamples.
